(** * L-system grammar expansion and turtle agent (src/l_system.py)

    A shallow embedding of the three classes of [l_system.py]:
    [L_Grammar] (string rewriting), [SimpleAgent] (the turtle state machine)
    and [L_Agent] (the interpreter of an expanded command string through a
    dispatch table).

    Conventions of the embedding.
    - Python strings are [string], one-character strings are [ascii].
    - Python numbers (the ints given as defaults and the floats produced by
      the numpy calls) are real numbers: [+], [*], [/], [cos], [sin] and the
      constant [PI] are those of the reals, so rounding and NaN are not
      modelled.  The theorems below use [forward] as an operation that
      either raises or appends the position it stored; the only values they
      compute are at heading 0, where the doubles are exact as well.
    - A Python list that is mutated in place and referenced from several
      places (the polylines) lives in an explicit heap of list objects and is
      named by its address; lists that are owned by one attribute only are
      plain Rocq lists, with [append] adding at the end.
    - A method is a computation in a state-and-exception monad over the
      agent: it returns the agent as it is when the method returns or when
      the exception leaves it. *)

From Stdlib Require Import List String Ascii ZArith Reals Lra Lia Bool.
Import ListNotations.

Local Open Scope string_scope.
Local Open Scope list_scope.

(** ** Python built-ins used by the source *)

Module Py.

(** [range(n)] for an integer [n]: [0, 1, ..., n-1], empty when [n <= 0]. *)
Definition range (n : Z) : list Z :=
  map Z.of_nat (seq 0 (Z.to_nat n)).

(** Iterating over a string yields its one-character strings. *)
Fixpoint chars (s : string) : list ascii :=
  match s with
  | EmptyString => []
  | String c s' => c :: chars s'
  end.

(** The one-character string of a character. *)
Definition str (c : ascii) : string := String c EmptyString.

(** [sep.join(parts)] with the empty separator. *)
Fixpoint join (parts : list string) : string :=
  match parts with
  | [] => EmptyString
  | p :: ps => p ++ join ps
  end.

(** A dict with one-character keys, as the list of its items. *)
Definition dict (V : Type) : Type := list (ascii * V).

(** [d.get(k)]: the value of the item whose key is [k], if any. *)
Fixpoint lookup {V : Type} (d : dict V) (k : ascii) : option V :=
  match d with
  | [] => None
  | (k', v) :: d' => if Ascii.eqb k' k then Some v else lookup d' k
  end.

(** [d.get(k, default)]. *)
Definition get {V : Type} (d : dict V) (k : ascii) (default : V) : V :=
  match lookup d k with
  | Some v => v
  | None => default
  end.

(** [l.pop()]: the last element and the list without it; [None] stands for
    the [IndexError] of popping from an empty list. *)
Fixpoint pop {A : Type} (l : list A) : option (A * list A) :=
  match l with
  | [] => None
  | a :: l' =>
      match pop l' with
      | None => Some (a, [])
      | Some (b, rest) => Some (b, a :: rest)
      end
  end.

End Py.

(** ** Exceptions and the monad of methods *)

Inductive exn : Type :=
| AssertionError (msg : string)
| IndexError
| KeyError (key : ascii)
| AttributeError (name : string)
| TypeError.

Inductive outcome (A : Type) : Type :=
| Return (a : A)
| Raise (e : exn).

Arguments Return {A} a.
Arguments Raise {A} e.

(** A computation on an object of type [S]: its outcome and the object as the
    computation leaves it. *)
Definition M (S A : Type) : Type := S -> outcome A * S.

Definition ret {S A : Type} (a : A) : M S A := fun s => (Return a, s).

Definition raise {S A : Type} (e : exn) : M S A := fun s => (Raise e, s).

Definition bind {S A B : Type} (m : M S A) (k : A -> M S B) : M S B :=
  fun s =>
    match m s with
    | (Return a, s') => k a s'
    | (Raise e, s') => (Raise e, s')
    end.

Definition gets {S A : Type} (f : S -> A) : M S A := fun s => (Return (f s), s).

Definition modify {S : Type} (f : S -> S) : M S unit := fun s => (Return tt, f s).

Declare Scope monad_scope.
Delimit Scope monad_scope with monad.
Notation "v <- m ;; k" := (bind m (fun v => k))
  (at level 61, m at next level, right associativity) : monad_scope.
Notation "m ;; k" := (bind m (fun _ => k))
  (at level 61, right associativity) : monad_scope.
Local Open Scope monad_scope.

(** [assert cond, msg], the condition being a decision. *)
Definition assert_ {S : Type} {P Q : Prop} (cond : {P} + {Q}) (msg : string)
  : M S unit :=
  if cond then ret tt else raise (AssertionError msg).

(** [for a in l: body(a)]. *)
Fixpoint for_ {S A : Type} (l : list A) (body : A -> M S unit) : M S unit :=
  match l with
  | [] => ret tt
  | a :: l' => body a ;; for_ l' body
  end.

(** ** class L_Grammar *)

Module L_Grammar.

Record t : Type := mk {
  initial : string;
  rules : Py.dict string
}.

(** One turn of the loop body of [expand]:
    ["".join([self.rules.get(ch, ch) for ch in expansion])]. *)
Definition expand_body (self : t) (expansion : string) : string :=
  Py.join (map (fun ch => Py.get (rules self) ch (Py.str ch))
               (Py.chars expansion)).

(** [expand]: the loop variable [i] is not used by the body. *)
Definition expand (self : t) (iterations : Z) : string :=
  fold_left (fun expansion (_ : Z) => expand_body self expansion)
            (Py.range iterations) (initial self).

End L_Grammar.

(** *** The rewrite pass as the specification words it *)

(** One pass replaces every character [c] of the string with [rules[c]] if
    [c] is in the mapping and with [c] itself otherwise. *)
Fixpoint spec_pass (r : Py.dict string) (s : string) : string :=
  match s with
  | EmptyString => EmptyString
  | String c s' =>
      match Py.lookup r c with
      | Some w => w ++ spec_pass r s'
      | None => String c (spec_pass r s')
      end
  end.

(** [n] passes applied one after the other, starting from [s]. *)
Fixpoint spec_passes (r : Py.dict string) (n : nat) (s : string) : string :=
  match n with
  | O => s
  | S n' => spec_pass r (spec_passes r n' s)
  end.

(** ** class SimpleAgent *)

Local Open Scope R_scope.

Definition point : Type := R * R.

(** A polyline is a Python list of points; [push] stores the very list object
    that [forward] keeps appending to, so polylines are heap objects. *)
Definition polyline : Type := list point.
Definition addr : Type := nat.
Definition heap_t : Type := list polyline.

(** The list object at an address. *)
Definition deref (h : heap_t) (a : addr) : polyline := nth a h [].

(** [l = [p]]: a new list object, at the first free address. *)
Definition alloc (h : heap_t) (l : polyline) : addr * heap_t :=
  (List.length h, h ++ [l]).

(** [l.append(p)] on the list object at address [a]. *)
Fixpoint append_at (h : heap_t) (a : addr) (p : point) : heap_t :=
  match h, a with
  | [], _ => []
  | l :: h', O => (l ++ [p]) :: h'
  | l :: h', S a' => l :: append_at h' a' p
  end.

Definition distance_msg : string := "Distance must be non-negative".

Module SimpleAgent.

Record t : Type := mk {
  x : R;
  y : R;
  phi : R;
  _trace : addr;
  _state : list (R * R * R);
  _traces : list addr;
  heap : heap_t
}.

Definition set_x (v : R) (s : t) : t :=
  mk v (y s) (phi s) (_trace s) (_state s) (_traces s) (heap s).
Definition set_y (v : R) (s : t) : t :=
  mk (x s) v (phi s) (_trace s) (_state s) (_traces s) (heap s).
Definition set_phi (v : R) (s : t) : t :=
  mk (x s) (y s) v (_trace s) (_state s) (_traces s) (heap s).
Definition set__trace (v : addr) (s : t) : t :=
  mk (x s) (y s) (phi s) v (_state s) (_traces s) (heap s).
Definition set__state (v : list (R * R * R)) (s : t) : t :=
  mk (x s) (y s) (phi s) (_trace s) v (_traces s) (heap s).
Definition set__traces (v : list addr) (s : t) : t :=
  mk (x s) (y s) (phi s) (_trace s) (_state s) v (heap s).
Definition set_heap (v : heap_t) (s : t) : t :=
  mk (x s) (y s) (phi s) (_trace s) (_state s) (_traces s) v.

(** [__init__]: [self._trace = [(self.x, self.y)]] is the first list
    object. *)
Definition __init__ (x0 y0 phi0 : R) : t :=
  let (a, h) := alloc [] [(x0, y0)] in
  mk x0 y0 phi0 a [] [] h.

(** The [trace] property, [self._traces + [self._trace]]: a list of
    references to list objects. *)
Definition trace_refs (self : t) : list addr :=
  _traces self ++ [_trace self].

(** The polylines the [trace] property shows. *)
Definition trace (self : t) : list polyline :=
  map (deref (heap self)) (trace_refs self).

(** [self._trace.append((self.x, self.y))]. *)
Definition trace_append_position : M t unit :=
  modify (fun s => set_heap (append_at (heap s) (_trace s) (x s, y s)) s).

Definition forward (r : R) : M t unit :=
  assert_ (Rge_dec r 0) distance_msg ;;
  modify (fun s => set_x (x s + r * cos (2 * PI * phi s / 360)) s) ;;
  modify (fun s => set_y (y s + r * sin (2 * PI * phi s / 360)) s) ;;
  trace_append_position.

Definition backward (r : R) : M t unit :=
  forward (-1 * r).

Definition rotate (angle : R) : M t unit :=
  modify (fun s => set_phi (phi s + angle) s).

Definition push : M t unit :=
  modify (fun s => set__state (_state s ++ [(x s, y s, phi s)]) s) ;;
  modify (fun s => set__traces (_traces s ++ [_trace s]) s).

(** [self._state.pop()]. *)
Definition state_pop : M t (R * R * R) :=
  fun s =>
    match Py.pop (_state s) with
    | None => (Raise IndexError, s)
    | Some (top, rest) => (Return top, set__state rest s)
    end.

(** [self._trace = [(self.x, self.y)]]. *)
Definition trace_new : M t unit :=
  modify (fun s =>
    let (a, h) := alloc (heap s) [(x s, y s)] in
    set__trace a (set_heap h s)).

Definition pop : M t unit :=
  top <- state_pop ;;
  (let '(x', y', phi') := top in
   modify (fun s => set_phi phi' (set_y y' (set_x x' s)))) ;;
  modify (fun s => set__traces (_traces s ++ [_trace s]) s) ;;
  trace_new.

Definition noop : M t unit := ret tt.

(** The methods a dispatch entry can call on the agent, with their
    positional arguments; [forward] and [backward] have the default
    [r=1.0]. *)
Definition methods : list (string * (list R -> M t unit)) :=
  [ ("forward", fun args =>
       match args with [] => forward 1 | [r] => forward r
                  | _ => raise TypeError end);
    ("backward", fun args =>
       match args with [] => backward 1 | [r] => backward r
                  | _ => raise TypeError end);
    ("rotate", fun args =>
       match args with [angle] => rotate angle | _ => raise TypeError end);
    ("push", fun args =>
       match args with [] => push | _ => raise TypeError end);
    ("pop", fun args =>
       match args with [] => pop | _ => raise TypeError end);
    ("noop", fun args =>
       match args with [] => noop | _ => raise TypeError end) ].

Fixpoint getattr (ms : list (string * (list R -> M t unit))) (name : string)
  : option (list R -> M t unit) :=
  match ms with
  | [] => None
  | (n, f) :: ms' => if String.eqb n name then Some f else getattr ms' name
  end.

(** [t.name(args)]: an attribute that does not exist raises
    [AttributeError]. *)
Definition call (name : string) (args : list R) : M t unit :=
  match getattr methods name with
  | Some f => f args
  | None => raise (AttributeError name)
  end.

End SimpleAgent.

(** ** class L_Agent *)

Module L_Agent.

(** An entry of the dispatch table, [lambda t, d, a: ...]; the entries act
    on the agent through the methods of [SimpleAgent]. *)
Definition callable : Type := R -> R -> M SimpleAgent.t unit.

Record t : Type := mk {
  base : SimpleAgent.t;
  step : R;
  dphi : R;
  rules : Py.dict callable;
  iterations : Z;
  grammar : L_Grammar.t
}.

Definition set_base (v : SimpleAgent.t) (s : t) : t :=
  mk v (step s) (dphi s) (rules s) (iterations s) (grammar s).

Definition default_rules : Py.dict callable :=
  [ ("F"%char, fun d a => SimpleAgent.call "forward" [d]);
    ("B"%char, fun d a => SimpleAgent.call "back" [d]);
    ("+"%char, fun d a => SimpleAgent.call "rotate" [- a]);
    ("-"%char, fun d a => SimpleAgent.call "rotate" [a]);
    ("X"%char, fun d a => SimpleAgent.call "noop" []);
    ("Y"%char, fun d a => SimpleAgent.call "noop" []);
    ("["%char, fun d a => SimpleAgent.call "push" []);
    ("]"%char, fun d a => SimpleAgent.call "pop" []) ].

(** A method of the base class run on the agent. *)
Definition on_base {A : Type} (m : M SimpleAgent.t A) : M t A :=
  fun s => let (o, b) := m (base s) in (o, set_base b s).

(** [self.rules[i]]: a missing key raises [KeyError]. *)
Definition rules_getitem (i : ascii) : M t callable :=
  fun s =>
    match Py.lookup (rules s) i with
    | Some f => (Return f, s)
    | None => (Raise (KeyError i), s)
    end.

(** The body of the loop of [_process]:
    [self.rules[i](self, self.step, self.dphi)]. *)
Definition dispatch (i : ascii) : M t unit :=
  f <- rules_getitem i ;;
  d <- gets step ;;
  a <- gets dphi ;;
  on_base (f d a).

Definition _process : M t unit :=
  fun self =>
    let seq := L_Grammar.expand (grammar self) (iterations self) in
    for_ (Py.chars seq) dispatch self.

(** [__init__]; the agent exists only once the assertion has passed. *)
Definition __init__ (x0 y0 phi0 : R) (rules : Py.dict callable)
    (grammar : option L_Grammar.t) (step phi : R) (iterations : Z)
  : outcome unit * option t :=
  match grammar with
  | None => (Raise (AssertionError "Grammar must be provided"), None)
  | Some g =>
      let self :=
        mk (SimpleAgent.__init__ x0 y0 phi0) step phi rules iterations g in
      let (o, self') := _process self in
      (o, Some self')
  end.

End L_Agent.

(** ** Vocabulary of the statements *)

(** Every polyline that the [trace] property shows has at least one point. *)
Definition nonempty_polylines (s : SimpleAgent.t) : Prop :=
  Forall (fun p : polyline => (1 <= List.length p)%nat) (SimpleAgent.trace s).

(** Every reference the agent holds names a list object of its heap, as every
    Python reference does. *)
Definition valid_refs (s : SimpleAgent.t) : Prop :=
  Forall (fun a : addr => (a < List.length (SimpleAgent.heap s))%nat)
         (SimpleAgent.trace_refs s).

(** The operations of the turtle, for counting the ones an interpretation
    executes. *)
Inductive operation : Type :=
| Forward (r : R)
| Backward (r : R)
| Rotate (angle : R)
| Push
| Pop
| Noop.

Definition run (o : operation) : M SimpleAgent.t unit :=
  match o with
  | Forward r => SimpleAgent.forward r
  | Backward r => SimpleAgent.backward r
  | Rotate angle => SimpleAgent.rotate angle
  | Push => SimpleAgent.push
  | Pop => SimpleAgent.pop
  | Noop => SimpleAgent.noop
  end.

Definition is_push (o : operation) : bool :=
  match o with Push => true | _ => false end.

Definition is_pop (o : operation) : bool :=
  match o with Pop => true | _ => false end.

(** The number of elements of a list that satisfy a test. *)
Definition count {A : Type} (f : A -> bool) (l : list A) : nat :=
  List.length (filter f l).

(** The operation the default dispatch table executes for a symbol, when it
    executes one. *)
Definition default_operation (d a : R) (c : ascii) : option operation :=
  if Ascii.eqb "F" c then Some (Forward d)
  else if Ascii.eqb "+" c then Some (Rotate (- a))
  else if Ascii.eqb "-" c then Some (Rotate a)
  else if Ascii.eqb "X" c then Some Noop
  else if Ascii.eqb "Y" c then Some Noop
  else if Ascii.eqb "[" c then Some Push
  else if Ascii.eqb "]" c then Some Pop
  else None.

(** The last point of a polyline. *)
Definition last_point (p : polyline) : option point :=
  match rev p with
  | [] => None
  | q :: _ => Some q
  end.

(** The operations that the default dispatch table executes for a command
    string, when every symbol of the string executes one. *)
Fixpoint default_operations (d a : R) (cs : list ascii)
  : option (list operation) :=
  match cs with
  | [] => Some []
  | c :: cs' =>
      match default_operation d a c, default_operations d a cs' with
      | Some o, Some ops => Some (o :: ops)
      | _, _ => None
      end
  end.

(** The depth of the state stack after a sequence of operations that starts
    at a given depth; [None] when a pop finds the stack empty. *)
Fixpoint depth_after (depth : nat) (ops : list operation) : option nat :=
  match ops with
  | [] => Some depth
  | Push :: ops' => depth_after (S depth) ops'
  | Pop :: ops' =>
      match depth with
      | O => None
      | S depth' => depth_after depth' ops'
      end
  | _ :: ops' => depth_after depth ops'
  end.

(** The distance of an operation passes the assertion of [forward]. *)
Definition distance_ok (o : operation) : Prop :=
  match o with
  | Forward r => r >= 0
  | Backward r => r <= 0
  | _ => True
  end.

(** The open polyline ends at the position of the turtle. *)
Definition open_ends_at_position (s : SimpleAgent.t) : Prop :=
  last_point (deref (SimpleAgent.heap s) (SimpleAgent._trace s))
  = Some (SimpleAgent.x s, SimpleAgent.y s).

(** The symbols that the default table sends to [noop]. *)
Definition is_noop_symbol (c : ascii) : bool :=
  Ascii.eqb "X" c || Ascii.eqb "Y" c.

(** The characters of the replacement strings of a rule mapping. *)
Definition replacement_chars (r : Py.dict string) : list ascii :=
  flat_map (fun kv => Py.chars (snd kv)) r.

(** ** Theorems about L_Grammar *)

Lemma expand_body_spec_pass (g : L_Grammar.t) (s : string) :
  L_Grammar.expand_body g s = spec_pass (L_Grammar.rules g) s.
Proof.
  unfold L_Grammar.expand_body.
  induction s as [|c s IH]; simpl; [reflexivity|].
  unfold Py.get at 1.
  destruct (Py.lookup (L_Grammar.rules g) c); simpl; now rewrite IH.
Qed.

Lemma fold_seq_passes (g : L_Grammar.t) (n k : nat) (s : string) :
  fold_left (fun e (_ : Z) => L_Grammar.expand_body g e) (map Z.of_nat (seq k (S n))) s
  = L_Grammar.expand_body g
      (fold_left (fun e (_ : Z) => L_Grammar.expand_body g e) (map Z.of_nat (seq k n)) s).
Proof.
  rewrite seq_S, map_app, fold_left_app. reflexivity.
Qed.

Lemma expand_of_nat (g : L_Grammar.t) (n : nat) :
  L_Grammar.expand g (Z.of_nat n) = spec_passes (L_Grammar.rules g) n (L_Grammar.initial g).
Proof.
  unfold L_Grammar.expand, Py.range. rewrite Nat2Z.id.
  induction n as [|n IH].
  - reflexivity.
  - rewrite fold_seq_passes, IH. simpl. apply expand_body_spec_pass.
Qed.

(** C3: for every grammar and every n >= 0, [expand n] is the n-fold
    sequential application of the rewrite pass to the initial string;
    [expand 0] is the initial string and [expand (n+1)] is one more pass
    applied to [expand n]. *)
Theorem expand_iterates_pass (g : L_Grammar.t) (n : Z) (Hn : (0 <= n)%Z) :
  L_Grammar.expand g n = spec_passes (L_Grammar.rules g) (Z.to_nat n) (L_Grammar.initial g)
  /\ L_Grammar.expand g 0 = L_Grammar.initial g
  /\ L_Grammar.expand g (n + 1) = spec_pass (L_Grammar.rules g) (L_Grammar.expand g n).
Proof.
  split; [|split].
  - rewrite <- (Z2Nat.id n Hn) at 1. apply expand_of_nat.
  - reflexivity.
  - rewrite <- (Z2Nat.id n Hn).
    replace (Z.of_nat (Z.to_nat n) + 1)%Z with (Z.of_nat (S (Z.to_nat n))) by lia.
    now rewrite !expand_of_nat.
Qed.

Lemma expand_iterates_pass_witness :
  (0 <= 2)%Z
  /\ L_Grammar.expand (L_Grammar.mk "F" [("F"%char, "F+F")]) 2 = "F+F+F+F".
Proof.
  split; [lia|].
  destruct (expand_iterates_pass (L_Grammar.mk "F" [("F"%char, "F+F")]) 2
              ltac:(lia)) as [H _].
  rewrite H. reflexivity.
Defined.

(** ** The monad and the Python lists *)

Lemma for_app {S A : Type} (l1 l2 : list A) (body : A -> M S unit) (s : S) :
  for_ (l1 ++ l2) body s
  = match for_ l1 body s with
    | (Return _, s') => for_ l2 body s'
    | (Raise e, s') => (Raise e, s')
    end.
Proof.
  revert s; induction l1 as [|a l1 IH]; intros s; simpl.
  - reflexivity.
  - unfold bind. destruct (body a s) as [[[]|e] s1]; [apply IH | reflexivity].
Qed.

Lemma pop_snoc {A : Type} (l : list A) (a : A) :
  Py.pop (l ++ [a]) = Some (a, l).
Proof.
  induction l as [|b l IH]; simpl; [reflexivity | now rewrite IH].
Qed.

Lemma pop_none {A : Type} (l : list A) : Py.pop l = None <-> l = [].
Proof.
  split; [|intros ->; reflexivity].
  destruct l as [|a l]; [reflexivity|]. simpl.
  destruct (Py.pop l) as [[b rest]|]; discriminate.
Qed.

Lemma pop_some {A : Type} (l rest : list A) (a : A) :
  Py.pop l = Some (a, rest) -> l = rest ++ [a].
Proof.
  revert rest; induction l as [|b l IH]; intros rest; simpl; [discriminate|].
  destruct (Py.pop l) as [[c rest']|] eqn:E.
  - intros [= <- <-]. simpl. f_equal. now apply IH.
  - intros [= <- <-]. apply pop_none in E. now subst.
Qed.

(** ** The heap of polylines *)

Lemma length_append_at (h : heap_t) (a : addr) (p : point) :
  List.length (append_at h a p) = List.length h.
Proof.
  revert a; induction h as [|l h IH]; intros [|a]; simpl; auto.
Qed.

Lemma deref_append_at_same (h : heap_t) (a : addr) (p : point) :
  (a < List.length h)%nat -> deref (append_at h a p) a = deref h a ++ [p].
Proof.
  unfold deref. revert a; induction h as [|l h IH]; intros [|a] H; simpl in *;
    try lia; [reflexivity|]. apply IH. lia.
Qed.

Lemma deref_append_at_other (h : heap_t) (a b : addr) (p : point) :
  a <> b -> deref (append_at h a p) b = deref h b.
Proof.
  unfold deref. revert a b; induction h as [|l h IH]; intros [|a] [|b] H; simpl;
    try reflexivity; try congruence. apply IH. congruence.
Qed.

Lemma deref_append_at_length (h : heap_t) (a b : addr) (p : point) :
  (List.length (deref h b) <= List.length (deref (append_at h a p) b))%nat.
Proof.
  destruct (Nat.eq_dec a b) as [->|Hab].
  - destruct (Nat.lt_ge_cases b (List.length h)) as [Hb|Hb].
    + rewrite deref_append_at_same by assumption. rewrite length_app. lia.
    + unfold deref at 1. rewrite nth_overflow by assumption. simpl. lia.
  - rewrite deref_append_at_other by assumption. lia.
Qed.

Lemma deref_alloc_new (h : heap_t) (l : polyline) :
  deref (h ++ [l]) (List.length h) = l.
Proof.
  unfold deref. rewrite app_nth2 by lia.
  now rewrite Nat.sub_diag.
Qed.

Lemma deref_alloc_old (h : heap_t) (l : polyline) (a : addr) :
  (a < List.length h)%nat -> deref (h ++ [l]) a = deref h a.
Proof.
  intros H. unfold deref. now rewrite app_nth1.
Qed.

Lemma deref_nonempty_valid (h : heap_t) (a : addr) :
  (1 <= List.length (deref h a))%nat -> (a < List.length h)%nat.
Proof.
  intros H. destruct (Nat.lt_ge_cases a (List.length h)) as [Ha|Ha]; [assumption|].
  unfold deref in H. rewrite nth_overflow in H by assumption. simpl in H. lia.
Qed.

(** ** The methods of SimpleAgent, one equation each *)

Lemma forward_ok (r : R) (s : SimpleAgent.t) :
  r >= 0 ->
  SimpleAgent.forward r s
  = (Return tt,
     let x' := SimpleAgent.x s + r * cos (2 * PI * SimpleAgent.phi s / 360) in
     let y' := SimpleAgent.y s + r * sin (2 * PI * SimpleAgent.phi s / 360) in
     SimpleAgent.mk x' y' (SimpleAgent.phi s) (SimpleAgent._trace s)
       (SimpleAgent._state s) (SimpleAgent._traces s)
       (append_at (SimpleAgent.heap s) (SimpleAgent._trace s) (x', y'))).
Proof.
  intros Hr. unfold SimpleAgent.forward, assert_, bind.
  destruct (Rge_dec r 0) as [_|Hn]; [reflexivity | contradiction].
Qed.

Lemma forward_negative (r : R) (s : SimpleAgent.t) :
  r < 0 ->
  SimpleAgent.forward r s = (Raise (AssertionError distance_msg), s).
Proof.
  intros Hr. unfold SimpleAgent.forward, assert_, bind.
  destruct (Rge_dec r 0) as [Hp|_]; [lra | reflexivity].
Qed.

Lemma backward_positive (r : R) (s : SimpleAgent.t) :
  r > 0 ->
  SimpleAgent.backward r s = (Raise (AssertionError distance_msg), s).
Proof.
  intros Hr. unfold SimpleAgent.backward. apply forward_negative. lra.
Qed.

Lemma pop_empty (s : SimpleAgent.t) :
  SimpleAgent._state s = [] -> SimpleAgent.pop s = (Raise IndexError, s).
Proof.
  intros H. unfold SimpleAgent.pop, bind, SimpleAgent.state_pop.
  now rewrite H.
Qed.

Lemma pop_nonempty (s : SimpleAgent.t) (rest : list (R * R * R))
    (x' y' phi' : R) :
  SimpleAgent._state s = rest ++ [(x', y', phi')] ->
  SimpleAgent.pop s
  = (Return tt,
     SimpleAgent.mk x' y' phi' (List.length (SimpleAgent.heap s)) rest
       (SimpleAgent._traces s ++ [SimpleAgent._trace s])
       (SimpleAgent.heap s ++ [[(x', y')]])).
Proof.
  intros H. unfold SimpleAgent.pop, bind, SimpleAgent.state_pop.
  rewrite H, pop_snoc. reflexivity.
Qed.

Lemma push_eq (s : SimpleAgent.t) :
  SimpleAgent.push s
  = (Return tt,
     SimpleAgent.mk (SimpleAgent.x s) (SimpleAgent.y s) (SimpleAgent.phi s)
       (SimpleAgent._trace s)
       (SimpleAgent._state s
          ++ [(SimpleAgent.x s, SimpleAgent.y s, SimpleAgent.phi s)])
       (SimpleAgent._traces s ++ [SimpleAgent._trace s])
       (SimpleAgent.heap s)).
Proof. reflexivity. Qed.

Lemma rotate_eq (angle : R) (s : SimpleAgent.t) :
  SimpleAgent.rotate angle s
  = (Return tt, SimpleAgent.set_phi (SimpleAgent.phi s + angle) s).
Proof. reflexivity. Qed.

(** ** References stay valid *)

Lemma valid_refs_open (s : SimpleAgent.t) :
  valid_refs s ->
  (SimpleAgent._trace s < List.length (SimpleAgent.heap s))%nat.
Proof.
  unfold valid_refs, SimpleAgent.trace_refs. intros H.
  apply Forall_app in H. destruct H as [_ H]. now inversion H.
Qed.

Lemma valid_refs_init (x0 y0 phi0 : R) :
  valid_refs (SimpleAgent.__init__ x0 y0 phi0).
Proof.
  unfold valid_refs. simpl. repeat constructor.
Qed.

(** Every operation, returning or raising, leaves an agent whose references
    are valid when they were; with [valid_refs_init], the agents that the
    program can reach have an open polyline in their heap. *)
Lemma valid_refs_run (o : operation) (s : SimpleAgent.t) :
  valid_refs s -> valid_refs (snd (run o s)).
Proof.
  assert (Hfw : forall r, valid_refs s ->
                          valid_refs (snd (SimpleAgent.forward r s))).
  { intros r H. destruct (Rge_dec r 0) as [Hr|Hr].
    - rewrite forward_ok by assumption. unfold valid_refs in *. simpl.
      now rewrite length_append_at.
    - now rewrite forward_negative by lra. }
  destruct o; intros H; cbn [run].
  - now apply Hfw.
  - now apply Hfw.
  - exact H.
  - rewrite push_eq. unfold valid_refs, SimpleAgent.trace_refs in *. simpl.
    apply Forall_app. split; [assumption|].
    apply Forall_app in H. apply H.
  - destruct (Py.pop (SimpleAgent._state s)) as [[[[x' y'] phi'] rest]|] eqn:E.
    + apply pop_some in E. rewrite (pop_nonempty _ _ _ _ _ E).
      unfold valid_refs, SimpleAgent.trace_refs in *. simpl.
      rewrite length_app. simpl. apply Forall_app. split.
      * eapply Forall_impl; [|exact H]. simpl. intros a Ha. lia.
      * repeat constructor. lia.
    + apply pop_none in E. now rewrite pop_empty.
  - exact H.
Qed.

(** ** backward and the symbol B *)

(** C1 (the code departs from the claim): [backward(1)] on a fresh agent
    passes [-1.0*1] to [forward], whose assertion [r >= 0] then fails; the
    call raises instead of moving the turtle, and leaves the agent as it
    was. *)
Theorem backward_one_raises :
  SimpleAgent.backward 1 (SimpleAgent.__init__ 0 0 0)
  = (Raise (AssertionError distance_msg), SimpleAgent.__init__ 0 0 0)
  /\ SimpleAgent.backward 1 (SimpleAgent.__init__ 0 0 0)
     = SimpleAgent.forward (- (1)) (SimpleAgent.__init__ 0 0 0).
Proof.
  split.
  - apply backward_positive. lra.
  - unfold SimpleAgent.backward. f_equal. lra.
Qed.

Lemma set_base_base (self : L_Agent.t) :
  L_Agent.set_base (L_Agent.base self) self = self.
Proof. now destruct self. Qed.

Lemma call_back (args : list R) (s : SimpleAgent.t) :
  SimpleAgent.call "back" args s = (Raise (AttributeError "back"), s).
Proof. reflexivity. Qed.

Lemma dispatch_B_default (self : L_Agent.t) :
  L_Agent.rules self = L_Agent.default_rules ->
  L_Agent.dispatch "B" self = (Raise (AttributeError "back"), self).
Proof.
  intros H. unfold L_Agent.dispatch, bind, L_Agent.rules_getitem.
  rewrite H. simpl. unfold L_Agent.on_base, SimpleAgent.call. simpl.
  unfold raise. now rewrite set_base_base.
Qed.

(** C2 (the code departs from the claim): the default table sends [B] to
    [t.back(d)], and the agent has no attribute [back]; an agent built with
    the default table on a grammar that expands to ["B"] raises
    [AttributeError] at that symbol and the turtle has not moved. *)
Theorem default_B_raises_AttributeError :
  L_Agent.__init__ 0 0 0 L_Agent.default_rules
    (Some (L_Grammar.mk "B" [])) 5 60 1
  = (Raise (AttributeError "back"),
     Some (L_Agent.mk (SimpleAgent.__init__ 0 0 0) 5 60 L_Agent.default_rules
             1 (L_Grammar.mk "B" []))).
Proof.
  unfold L_Agent.__init__, L_Agent._process.
  change (Py.chars _) with ["B"%char]. simpl for_. unfold bind.
  now rewrite dispatch_B_default.
Qed.

(** ** pop *)

(** C5: [pop] raises exactly when the state stack is empty, and the error is
    the [IndexError] of the empty list; on a stack [rest ++ [top]] it
    restores [(x, y, heading)] from [top], leaves [rest] as the stack,
    appends the open polyline to the completed list, and makes a new list
    object, holding the restored position only, the open polyline. *)
Theorem pop_spec (s : SimpleAgent.t) :
  ((exists e s', SimpleAgent.pop s = (Raise e, s'))
     <-> SimpleAgent._state s = [])
  /\ (forall e s', SimpleAgent.pop s = (Raise e, s') -> e = IndexError)
  /\ (forall rest x' y' phi',
        SimpleAgent._state s = rest ++ [(x', y', phi')] ->
        exists s',
          SimpleAgent.pop s = (Return tt, s')
          /\ SimpleAgent.x s' = x' /\ SimpleAgent.y s' = y'
          /\ SimpleAgent.phi s' = phi'
          /\ SimpleAgent._state s' = rest
          /\ SimpleAgent._traces s'
             = SimpleAgent._traces s ++ [SimpleAgent._trace s]
          /\ ~ (SimpleAgent._trace s' < List.length (SimpleAgent.heap s))%nat
          /\ deref (SimpleAgent.heap s') (SimpleAgent._trace s')
             = [(SimpleAgent.x s', SimpleAgent.y s')]
          /\ (forall a, (a < List.length (SimpleAgent.heap s))%nat ->
                deref (SimpleAgent.heap s') a = deref (SimpleAgent.heap s) a)).
Proof.
  assert (Hcases : SimpleAgent._state s = []
                   \/ exists rest top, SimpleAgent._state s = rest ++ [top]).
  { destruct (Py.pop (SimpleAgent._state s)) as [[top rest]|] eqn:E.
    - right. exists rest, top. now apply pop_some.
    - left. now apply pop_none. }
  split; [|split].
  - split.
    + intros (e & s' & H). destruct Hcases as [H0|(rest & [[x' y'] phi'] & H1)];
        [assumption|].
      rewrite (pop_nonempty _ _ _ _ _ H1) in H. discriminate.
    + intros H. exists IndexError, s. now apply pop_empty.
  - intros e s' H. destruct Hcases as [H0|(rest & [[x' y'] phi'] & H1)].
    + rewrite (pop_empty _ H0) in H. now inversion H.
    + rewrite (pop_nonempty _ _ _ _ _ H1) in H. discriminate.
  - intros rest x' y' phi' H. eexists. split; [exact (pop_nonempty _ _ _ _ _ H)|].
    simpl. repeat split.
    + lia.
    + apply (deref_alloc_new (SimpleAgent.heap s) [(x', y')]).
    + intros a Ha. now apply (deref_alloc_old (SimpleAgent.heap s) [(x', y')]).
Qed.

Lemma pop_spec_witness :
  exists s',
    SimpleAgent.pop
      (SimpleAgent.mk 3 4 5 0%nat [(1, 2, 90)] [0%nat] [[(1, 2); (3, 4)]])
    = (Return tt, s')
    /\ SimpleAgent.x s' = 1 /\ SimpleAgent.y s' = 2 /\ SimpleAgent.phi s' = 90
    /\ SimpleAgent._state s' = []
    /\ SimpleAgent._traces s' = [0%nat; 0%nat]
    /\ SimpleAgent.trace s' = [[(1, 2); (3, 4)]; [(1, 2); (3, 4)]; [(1, 2)]].
Proof.
  pose (s0 := SimpleAgent.mk 3 4 5 0%nat [(1, 2, 90)] [0%nat]
                [[(1, 2); (3, 4)]]).
  destruct (pop_spec s0) as (_ & _ & H).
  destruct (H [] 1 2 90 eq_refl) as (s' & Hp & Hx & Hy & Hphi & Hst & Htr & _).
  exists s'. repeat (split; [assumption|]).
  rewrite (pop_nonempty s0 [] 1 2 90 eq_refl) in Hp.
  injection Hp as <-. reflexivity.
Defined.

(** C9: [pop] on an empty state stack raises and leaves the agent exactly as
    it was: position, heading, state stack, open polyline, completed list,
    the list objects, and so what the [trace] property shows. *)
Theorem pop_empty_leaves_agent_unchanged (s : SimpleAgent.t)
    (Hempty : SimpleAgent._state s = []) :
  exists s',
    SimpleAgent.pop s = (Raise IndexError, s')
    /\ SimpleAgent.x s' = SimpleAgent.x s
    /\ SimpleAgent.y s' = SimpleAgent.y s
    /\ SimpleAgent.phi s' = SimpleAgent.phi s
    /\ SimpleAgent._state s' = SimpleAgent._state s
    /\ SimpleAgent._trace s' = SimpleAgent._trace s
    /\ SimpleAgent._traces s' = SimpleAgent._traces s
    /\ SimpleAgent.heap s' = SimpleAgent.heap s
    /\ SimpleAgent.trace s' = SimpleAgent.trace s
    /\ s' = s.
Proof.
  exists s. split; [now apply pop_empty|]. repeat split.
Qed.

Lemma pop_empty_leaves_agent_unchanged_witness :
  SimpleAgent._state (SimpleAgent.__init__ 0 0 0) = []
  /\ SimpleAgent.pop (SimpleAgent.__init__ 0 0 0)
     = (Raise IndexError, SimpleAgent.__init__ 0 0 0).
Proof.
  split; [reflexivity|].
  destruct (pop_empty_leaves_agent_unchanged (SimpleAgent.__init__ 0 0 0)
              eq_refl) as (s' & Hp & _ & _ & _ & _ & _ & _ & _ & _ & Hs).
  rewrite Hp. now rewrite Hs.
Defined.

(** ** Headings *)

Lemma heading_0 : 2 * PI * 0 / 360 = 0.
Proof. lra. Qed.

(** ** The interpreter *)

Lemma dispatch_eq (i : ascii) (self : L_Agent.t) :
  L_Agent.dispatch i self
  = match Py.lookup (L_Agent.rules self) i with
    | Some f =>
        let (o, b) := f (L_Agent.step self) (L_Agent.dphi self)
                        (L_Agent.base self) in
        (o, L_Agent.set_base b self)
    | None => (Raise (KeyError i), self)
    end.
Proof.
  unfold L_Agent.dispatch, bind, L_Agent.rules_getitem, gets, L_Agent.on_base.
  now destruct (Py.lookup (L_Agent.rules self) i).
Qed.

(** The interpreter changes the turtle only: the table, the step, the angle
    and the grammar of the agent stay as they are. *)
Lemma dispatch_frame (i : ascii) (self : L_Agent.t) :
  exists b, snd (L_Agent.dispatch i self) = L_Agent.set_base b self.
Proof.
  rewrite dispatch_eq. destruct (Py.lookup (L_Agent.rules self) i) as [f|].
  - destruct (f _ _ _) as [o b]. now exists b.
  - exists (L_Agent.base self). simpl. now rewrite set_base_base.
Qed.

Lemma for_dispatch_frame (l : list ascii) (self : L_Agent.t) :
  exists b, snd (for_ l L_Agent.dispatch self) = L_Agent.set_base b self.
Proof.
  revert self; induction l as [|c l IH]; intros self; simpl.
  - exists (L_Agent.base self). now rewrite set_base_base.
  - unfold bind. destruct (dispatch_frame c self) as [b1 H1].
    destruct (L_Agent.dispatch c self) as [[[]|e] s1]; simpl in H1; subst s1.
    + destruct (IH (L_Agent.set_base b1 self)) as [b2 H2]. exists b2.
      rewrite H2. reflexivity.
    + now exists b1.
Qed.

(** With the default table a symbol either runs one operation of the turtle,
    or is [B] and finds no method, or is not in the table. *)
Lemma dispatch_default (c : ascii) (self : L_Agent.t) :
  L_Agent.rules self = L_Agent.default_rules ->
  L_Agent.dispatch c self
  = match default_operation (L_Agent.step self) (L_Agent.dphi self) c with
    | Some o => L_Agent.on_base (run o) self
    | None =>
        if Ascii.eqb "B" c then (Raise (AttributeError "back"), self)
        else (Raise (KeyError c), self)
    end.
Proof.
  intros H. destruct (Ascii.eqb "B" c) eqn:EB.
  - apply Ascii.eqb_eq in EB. subst c.
    rewrite dispatch_B_default by assumption. reflexivity.
  - rewrite dispatch_eq, H.
    unfold default_operation, L_Agent.default_rules. cbn [Py.lookup].
    rewrite EB.
    repeat match goal with
           | |- context [Ascii.eqb ?k c] => destruct (Ascii.eqb k c)
           end; reflexivity.
Qed.

(** A table entry that keeps a property of the turtle keeps it along the
    whole interpretation, whether it ends or raises. *)
Lemma for_dispatch_invariant (P : SimpleAgent.t -> Prop) (l : list ascii) :
  forall self : L_Agent.t,
    (forall c f, Py.lookup (L_Agent.rules self) c = Some f ->
       forall d a b, P b -> P (snd (f d a b))) ->
    P (L_Agent.base self) ->
    P (L_Agent.base (snd (for_ l L_Agent.dispatch self))).
Proof.
  induction l as [|c l IH]; intros self Htable HP; simpl; [assumption|].
  unfold bind.
  assert (HP1 : P (L_Agent.base (snd (L_Agent.dispatch c self)))).
  { rewrite dispatch_eq.
    destruct (Py.lookup (L_Agent.rules self) c) as [f|] eqn:E; [|assumption].
    specialize (Htable c f E (L_Agent.step self) (L_Agent.dphi self)
                  (L_Agent.base self) HP).
    destruct (f _ _ _) as [o b]. exact Htable. }
  destruct (dispatch_frame c self) as [b1 H1].
  destruct (L_Agent.dispatch c self) as [[[]|e] s1]; simpl in *; [|assumption].
  subst s1. apply IH; [|assumption]. exact Htable.
Qed.

Lemma process_unknown_symbol (self mid : L_Agent.t) (pre post : list ascii)
    (c : ascii) :
  Py.chars (L_Grammar.expand (L_Agent.grammar self) (L_Agent.iterations self))
  = pre ++ c :: post ->
  for_ pre L_Agent.dispatch self = (Return tt, mid) ->
  Py.lookup (L_Agent.rules self) c = None ->
  L_Agent._process self = (Raise (KeyError c), mid).
Proof.
  intros Hseq Hpre Hmissing.
  unfold L_Agent._process. rewrite Hseq, for_app, Hpre. simpl. unfold bind.
  destruct (for_dispatch_frame pre self) as [b Hb].
  rewrite Hpre in Hb. simpl in Hb.
  rewrite dispatch_eq. subst mid. simpl. now rewrite Hmissing.
Qed.

(** C6: when the construction of an agent has interpreted the characters
    before [c] without error and [c] has no entry in the dispatch table, the
    construction raises [KeyError] for [c], and the agent is as those
    characters left it: nothing stands in for the missing entry.  A table
    without [Q] on a grammar that expands to ["Q"] raises before the turtle
    moves. *)
Theorem unknown_symbol_raises_KeyError
    (x0 y0 phi0 step phi : R) (table : Py.dict L_Agent.callable)
    (g : L_Grammar.t) (n : Z) (mid : L_Agent.t)
    (pre post : list ascii) (c : ascii)
    (Hseq : Py.chars (L_Grammar.expand g n) = pre ++ c :: post)
    (Hpre : for_ pre L_Agent.dispatch
              (L_Agent.mk (SimpleAgent.__init__ x0 y0 phi0) step phi table n g)
            = (Return tt, mid))
    (Hmissing : Py.lookup table c = None) :
  L_Agent.__init__ x0 y0 phi0 table (Some g) step phi n
  = (Raise (KeyError c), Some mid)
  /\ (forall table' g' n',
        Py.lookup table' "Q" = None ->
        L_Grammar.expand g' n' = "Q" ->
        L_Agent.__init__ x0 y0 phi0 table' (Some g') step phi n'
        = (Raise (KeyError "Q"),
           Some (L_Agent.mk (SimpleAgent.__init__ x0 y0 phi0) step phi table'
                   n' g'))).
Proof.
  split.
  - unfold L_Agent.__init__.
    now rewrite (process_unknown_symbol
                   (L_Agent.mk (SimpleAgent.__init__ x0 y0 phi0) step phi
                      table n g) mid pre post c Hseq Hpre Hmissing).
  - intros table' g' n' HQ Hexp. unfold L_Agent.__init__.
    set (self := L_Agent.mk (SimpleAgent.__init__ x0 y0 phi0) step phi
                   table' n' g').
    rewrite (process_unknown_symbol self self [] [] "Q"%char);
      [reflexivity | | reflexivity | exact HQ].
    simpl. now rewrite Hexp.
Qed.

Lemma unknown_symbol_raises_KeyError_witness :
  Py.chars (L_Grammar.expand (L_Grammar.mk "XQF" []) 0)
  = ["X"%char] ++ "Q"%char :: ["F"%char]
  /\ Py.lookup L_Agent.default_rules "Q" = None
  /\ L_Agent.__init__ 0 0 0 L_Agent.default_rules
       (Some (L_Grammar.mk "XQF" [])) 5 60 0
     = (Raise (KeyError "Q"),
        Some (L_Agent.mk (SimpleAgent.__init__ 0 0 0) 5 60
                L_Agent.default_rules 0 (L_Grammar.mk "XQF" []))).
Proof.
  split; [reflexivity|]. split; [reflexivity|].
  refine (proj1 (unknown_symbol_raises_KeyError 0 0 0 5 60
                   L_Agent.default_rules (L_Grammar.mk "XQF" []) 0 _
                   ["X"%char] ["F"%char] "Q"%char _ _ _)); reflexivity.
Defined.

(** ** Every polyline has a point *)

Lemma nonempty_polylines_refs (s : SimpleAgent.t) :
  nonempty_polylines s
  <-> Forall (fun a => (1 <= List.length (deref (SimpleAgent.heap s) a))%nat)
             (SimpleAgent.trace_refs s).
Proof.
  unfold nonempty_polylines, SimpleAgent.trace. now rewrite Forall_map.
Qed.

Lemma nonempty_init (x0 y0 phi0 : R) :
  nonempty_polylines (SimpleAgent.__init__ x0 y0 phi0).
Proof.
  apply nonempty_polylines_refs. repeat constructor.
Qed.

Lemma nonempty_forward (r : R) (s : SimpleAgent.t) :
  nonempty_polylines s -> nonempty_polylines (snd (SimpleAgent.forward r s)).
Proof.
  intros H. destruct (Rge_dec r 0) as [Hr|Hr].
  - rewrite forward_ok by assumption. apply nonempty_polylines_refs.
    apply nonempty_polylines_refs in H. simpl.
    unfold SimpleAgent.trace_refs in *. simpl.
    eapply Forall_impl; [|exact H]. intros a Ha. simpl in Ha.
    eapply Nat.le_trans; [exact Ha | apply deref_append_at_length].
  - rewrite forward_negative by lra. assumption.
Qed.

Lemma nonempty_push (s : SimpleAgent.t) :
  nonempty_polylines s -> nonempty_polylines (snd (SimpleAgent.push s)).
Proof.
  intros H. rewrite push_eq. apply nonempty_polylines_refs.
  apply nonempty_polylines_refs in H. unfold SimpleAgent.trace_refs in *.
  simpl. apply Forall_app. split; [assumption|].
  apply Forall_app in H. apply H.
Qed.

Lemma nonempty_pop (s : SimpleAgent.t) :
  nonempty_polylines s -> nonempty_polylines (snd (SimpleAgent.pop s)).
Proof.
  intros H. destruct (Py.pop (SimpleAgent._state s)) as [[[[x' y'] phi'] rest]|]
    eqn:E.
  - apply pop_some in E. rewrite (pop_nonempty _ _ _ _ _ E).
    apply nonempty_polylines_refs. apply nonempty_polylines_refs in H.
    unfold SimpleAgent.trace_refs in *. simpl. apply Forall_app. split.
    + eapply Forall_impl; [|exact H]. intros a Ha. simpl in Ha.
      rewrite deref_alloc_old; [assumption|].
      now apply deref_nonempty_valid.
    + constructor; [|constructor].
      rewrite deref_alloc_new. simpl. lia.
  - apply pop_none in E. now rewrite pop_empty.
Qed.

Lemma nonempty_run (o : operation) (s : SimpleAgent.t) :
  nonempty_polylines s -> nonempty_polylines (snd (run o s)).
Proof.
  destruct o; simpl; intros H.
  - now apply nonempty_forward.
  - now apply nonempty_forward.
  - assumption.
  - now apply nonempty_push.
  - now apply nonempty_pop.
  - assumption.
Qed.

Lemma nonempty_default_rules (c : ascii) (f : L_Agent.callable) :
  Py.lookup L_Agent.default_rules c = Some f ->
  forall d a b, nonempty_polylines b -> nonempty_polylines (snd (f d a b)).
Proof.
  unfold L_Agent.default_rules. cbn [Py.lookup].
  repeat match goal with
         | |- context [Ascii.eqb ?k c] => destruct (Ascii.eqb k c)
         end; try discriminate; intros [= <-] d a b H.
  - now apply (nonempty_run (Forward d)).
  - assumption.
  - now apply (nonempty_run (Rotate (- a))).
  - now apply (nonempty_run (Rotate a)).
  - assumption.
  - assumption.
  - now apply (nonempty_run Push).
  - now apply (nonempty_run Pop).
Qed.

(** C8: every polyline that the [trace] property shows has at least one
    point: in a fresh agent, after each of forward, backward, rotate, push,
    pop and noop (whether it returns or raises) when it held before, and so
    after every prefix of the command string that an agent with the default
    table interprets, and in the agent the construction leaves. *)
Theorem every_polyline_has_a_point :
  (forall x0 y0 phi0, nonempty_polylines (SimpleAgent.__init__ x0 y0 phi0))
  /\ (forall s, nonempty_polylines s ->
        (forall r, nonempty_polylines (snd (SimpleAgent.forward r s)))
        /\ (forall r, nonempty_polylines (snd (SimpleAgent.backward r s)))
        /\ (forall angle, nonempty_polylines (snd (SimpleAgent.rotate angle s)))
        /\ nonempty_polylines (snd (SimpleAgent.push s))
        /\ nonempty_polylines (snd (SimpleAgent.pop s))
        /\ nonempty_polylines (snd (SimpleAgent.noop s)))
  /\ (forall x0 y0 phi0 g step phi n pre post,
        Py.chars (L_Grammar.expand g n) = pre ++ post ->
        nonempty_polylines
          (L_Agent.base
             (snd (for_ pre L_Agent.dispatch
                     (L_Agent.mk (SimpleAgent.__init__ x0 y0 phi0) step phi
                        L_Agent.default_rules n g)))))
  /\ (forall x0 y0 phi0 g step phi n o self,
        L_Agent.__init__ x0 y0 phi0 L_Agent.default_rules (Some g) step phi n
        = (o, Some self) ->
        nonempty_polylines (L_Agent.base self)).
Proof.
  split; [exact nonempty_init|]. split; [|split].
  - intros s H. repeat split.
    + intros r. now apply nonempty_forward.
    + intros r. now apply nonempty_forward.
    + intros angle. exact H.
    + now apply nonempty_push.
    + now apply nonempty_pop.
    + assumption.
  - intros x0 y0 phi0 g step phi n pre post _.
    apply (for_dispatch_invariant nonempty_polylines).
    + exact nonempty_default_rules.
    + apply nonempty_init.
  - intros x0 y0 phi0 g step phi n o self H.
    unfold L_Agent.__init__, L_Agent._process in H.
    match type of H with
    | (let (_, _) := for_ ?l ?f ?s in _) = _ =>
        pose proof (for_dispatch_invariant nonempty_polylines l s
                      nonempty_default_rules (nonempty_init x0 y0 phi0)) as HI;
        destruct (for_ l f s) as [o1 s1]
    end.
    injection H as _ <-. exact HI.
Qed.

Lemma every_polyline_has_a_point_witness :
  nonempty_polylines (SimpleAgent.__init__ 0 0 0)
  /\ nonempty_polylines (snd (SimpleAgent.pop (snd (SimpleAgent.push
                                 (SimpleAgent.__init__ 0 0 0))))).
Proof.
  destruct every_polyline_has_a_point as (Hi & Hop & _).
  split; [apply Hi|].
  destruct (Hop _ (Hi 0 0 0)) as (_ & _ & _ & Hpush & _).
  destruct (Hop _ Hpush) as (_ & _ & _ & _ & Hpop & _).
  exact Hpop.
Defined.

(** ** Counting the polylines *)

Lemma trace_length (s : SimpleAgent.t) :
  List.length (SimpleAgent.trace s) = S (List.length (SimpleAgent._traces s)).
Proof.
  unfold SimpleAgent.trace, SimpleAgent.trace_refs.
  rewrite length_map, length_app. simpl. lia.
Qed.

Lemma forward_traces (r : R) (s s' : SimpleAgent.t) (o : outcome unit) :
  SimpleAgent.forward r s = (o, s') ->
  SimpleAgent._traces s' = SimpleAgent._traces s.
Proof.
  destruct (Rge_dec r 0) as [Hr|Hr].
  - rewrite forward_ok by assumption. now intros [= _ <-].
  - rewrite forward_negative by lra. now intros [= _ <-].
Qed.

Lemma run_traces_length (o : operation) (s s' : SimpleAgent.t) :
  run o s = (Return tt, s') ->
  List.length (SimpleAgent._traces s')
  = (List.length (SimpleAgent._traces s)
     + count is_push [o] + count is_pop [o])%nat.
Proof.
  destruct o; simpl; unfold count; simpl.
  - intros H. rewrite (forward_traces _ _ _ _ H). lia.
  - intros H. rewrite (forward_traces _ _ _ _ H). lia.
  - intros [= <-]. simpl. lia.
  - intros [= <-]. simpl. rewrite length_app. simpl. lia.
  - destruct (Py.pop (SimpleAgent._state s)) as [[[[x' y'] phi'] rest]|] eqn:E.
    + apply pop_some in E. rewrite (pop_nonempty _ _ _ _ _ E).
      intros [= <-]. simpl. rewrite length_app. simpl. lia.
    + apply pop_none in E. rewrite pop_empty by assumption. discriminate.
  - intros [= <-]. lia.
Qed.

Lemma count_cons {A : Type} (f : A -> bool) (a : A) (l : list A) :
  count f (a :: l) = (count f [a] + count f l)%nat.
Proof.
  unfold count. simpl. destruct (f a); reflexivity.
Qed.

Lemma count_one {A : Type} (f : A -> bool) (a : A) :
  count f [a] = if f a then 1%nat else 0%nat.
Proof.
  unfold count. simpl. destruct (f a); reflexivity.
Qed.

Lemma for_run_traces_length (ops : list operation) :
  forall s s' : SimpleAgent.t,
    for_ ops run s = (Return tt, s') ->
    List.length (SimpleAgent._traces s')
    = (List.length (SimpleAgent._traces s)
       + count is_push ops + count is_pop ops)%nat.
Proof.
  induction ops as [|o ops IH]; intros s s'; simpl.
  - intros [= <-]. unfold count. simpl. lia.
  - unfold bind. destruct (run o s) as [[[]|e] s1] eqn:E; [|discriminate].
    intros H. rewrite (IH _ _ H), (run_traces_length _ _ _ E).
    rewrite (count_cons is_push o ops), (count_cons is_pop o ops). lia.
Qed.

Lemma default_operation_push_pop (d a : R) (c : ascii) (o : operation) :
  default_operation d a c = Some o ->
  is_push o = Ascii.eqb "[" c /\ is_pop o = Ascii.eqb "]" c.
Proof.
  unfold default_operation.
  repeat match goal with
         | |- context [if Ascii.eqb ?k c then _ else _] =>
             destruct (Ascii.eqb_spec k c) as [<-|?]
         end; try discriminate; intros [= <-]; split; reflexivity.
Qed.

Lemma for_dispatch_default_traces_length (cs : list ascii) :
  forall self self' : L_Agent.t,
    L_Agent.rules self = L_Agent.default_rules ->
    for_ cs L_Agent.dispatch self = (Return tt, self') ->
    List.length (SimpleAgent._traces (L_Agent.base self'))
    = (List.length (SimpleAgent._traces (L_Agent.base self))
       + count (Ascii.eqb "[") cs + count (Ascii.eqb "]") cs)%nat.
Proof.
  induction cs as [|c cs IH]; intros self self' Hr; simpl.
  - intros [= <-]. unfold count. simpl. lia.
  - unfold bind. rewrite dispatch_default by assumption.
    destruct (default_operation _ _ c) as [o|] eqn:Eo;
      [|destruct (Ascii.eqb "B" c); discriminate].
    unfold L_Agent.on_base.
    destruct (run o (L_Agent.base self)) as [[[]|e] b] eqn:Eb; [|discriminate].
    intros H. apply IH in H; [|exact Hr]. rewrite H.
    cbn [L_Agent.base L_Agent.set_base].
    rewrite (run_traces_length _ _ _ Eb).
    destruct (default_operation_push_pop _ _ _ _ Eo) as [Hpush Hpop].
    rewrite (count_cons (Ascii.eqb "[") c cs), (count_cons (Ascii.eqb "]") c cs).
    rewrite !count_one, Hpush, Hpop.
    destruct (Ascii.eqb "[" c), (Ascii.eqb "]" c); lia.
Qed.

(** C10: after a sequence of operations that all return, the [trace]
    property shows as many polylines as before plus one for each push and
    one for each pop; from a fresh agent that is 1 plus the pushes plus the
    pops.  An agent built with the default table executes a push for each
    [[] and a pop for each []] of the command string, and when its
    construction returns its [trace] shows 1 plus that many polylines. *)
Theorem trace_length_counts_push_pop :
  (forall ops s s',
     for_ ops run s = (Return tt, s') ->
     List.length (SimpleAgent.trace s')
     = (List.length (SimpleAgent.trace s)
        + count is_push ops + count is_pop ops)%nat)
  /\ (forall ops x0 y0 phi0 s',
        for_ ops run (SimpleAgent.__init__ x0 y0 phi0) = (Return tt, s') ->
        List.length (SimpleAgent.trace s')
        = (1 + count is_push ops + count is_pop ops)%nat)
  /\ (forall x0 y0 phi0 g step phi n self,
        L_Agent.__init__ x0 y0 phi0 L_Agent.default_rules (Some g) step phi n
        = (Return tt, Some self) ->
        List.length (SimpleAgent.trace (L_Agent.base self))
        = (1 + count (Ascii.eqb "[") (Py.chars (L_Grammar.expand g n))
             + count (Ascii.eqb "]") (Py.chars (L_Grammar.expand g n)))%nat).
Proof.
  split; [|split].
  - intros ops s s' H. rewrite !trace_length.
    rewrite (for_run_traces_length _ _ _ H). lia.
  - intros ops x0 y0 phi0 s' H. rewrite trace_length.
    rewrite (for_run_traces_length _ _ _ H). simpl. lia.
  - intros x0 y0 phi0 g step phi n self H.
    unfold L_Agent.__init__, L_Agent._process in H. simpl in H.
    destruct (for_ _ _ _) as [o1 s1] eqn:E in H. injection H as -> ->.
    rewrite trace_length.
    apply for_dispatch_default_traces_length in E; [|reflexivity].
    rewrite E. simpl. lia.
Qed.

Lemma trace_length_counts_push_pop_witness :
  List.length
    (SimpleAgent.trace
       (snd (for_ [Push; Rotate 90; Pop; Noop] run
               (SimpleAgent.__init__ 0 0 0)))) = 3%nat.
Proof.
  destruct trace_length_counts_push_pop as (_ & H & _).
  apply (H [Push; Rotate 90; Pop; Noop] 0 0 0). reflexivity.
Defined.

(** ** The command string F[F]F *)

Lemma forward_heading_0 (r : R) (s : SimpleAgent.t) :
  r >= 0 -> SimpleAgent.phi s = 0 ->
  SimpleAgent.forward r s
  = (Return tt,
     SimpleAgent.mk (SimpleAgent.x s + r) (SimpleAgent.y s) 0
       (SimpleAgent._trace s) (SimpleAgent._state s) (SimpleAgent._traces s)
       (append_at (SimpleAgent.heap s) (SimpleAgent._trace s)
          (SimpleAgent.x s + r, SimpleAgent.y s))).
Proof.
  intros Hr Hphi. rewrite forward_ok by assumption. cbv zeta.
  rewrite Hphi, heading_0, cos_0, sin_0.
  replace (SimpleAgent.x s + r * 1) with (SimpleAgent.x s + r) by lra.
  replace (SimpleAgent.y s + r * 0) with (SimpleAgent.y s) by lra.
  reflexivity.
Qed.

Lemma process_F_push_F_pop_F (self : L_Agent.t) :
  L_Agent.rules self = L_Agent.default_rules ->
  L_Agent.step self = 1 ->
  L_Agent.base self = SimpleAgent.__init__ 0 0 0 ->
  for_ (Py.chars "F[F]F") L_Agent.dispatch self
  = (Return tt,
     L_Agent.set_base
       (SimpleAgent.mk 2 0 0 1%nat [] [0%nat; 0%nat]
          [[(0, 0); (1, 0); (2, 0)]; [(1, 0); (2, 0)]])
       self).
Proof.
  intros Hrules Hstep Hbase.
  assert (H1 : 1 >= 0) by lra.
  destruct self as [b d a table n g]. simpl in Hrules, Hstep, Hbase. subst.
  cbn [Py.chars for_]. unfold bind.
  rewrite dispatch_default by reflexivity.
  cbn [default_operation Ascii.eqb Bool.eqb L_Agent.step L_Agent.dphi].
  unfold L_Agent.on_base at 1. cbn [run L_Agent.base].
  rewrite forward_heading_0 by first [exact H1 | reflexivity].
  cbn [L_Agent.set_base L_Agent.step L_Agent.dphi L_Agent.rules
       L_Agent.iterations L_Agent.grammar].
  rewrite dispatch_default by reflexivity.
  cbn [default_operation Ascii.eqb Bool.eqb L_Agent.step L_Agent.dphi].
  unfold L_Agent.on_base at 1. cbn [run L_Agent.base]. rewrite push_eq.
  cbn [L_Agent.set_base L_Agent.step L_Agent.dphi L_Agent.rules
       L_Agent.iterations L_Agent.grammar].
  rewrite dispatch_default by reflexivity.
  cbn [default_operation Ascii.eqb Bool.eqb L_Agent.step L_Agent.dphi].
  unfold L_Agent.on_base at 1. cbn [run L_Agent.base].
  rewrite forward_heading_0 by first [exact H1 | reflexivity].
  cbn [L_Agent.set_base L_Agent.step L_Agent.dphi L_Agent.rules
       L_Agent.iterations L_Agent.grammar].
  rewrite dispatch_default by reflexivity.
  cbn [default_operation Ascii.eqb Bool.eqb L_Agent.step L_Agent.dphi].
  unfold L_Agent.on_base at 1. cbn [run L_Agent.base].
  rewrite (pop_nonempty _ [] (0 + 1) 0 0) by reflexivity.
  cbn [L_Agent.set_base L_Agent.step L_Agent.dphi L_Agent.rules
       L_Agent.iterations L_Agent.grammar].
  rewrite dispatch_default by reflexivity.
  cbn [default_operation Ascii.eqb Bool.eqb L_Agent.step L_Agent.dphi].
  unfold L_Agent.on_base at 1. cbn [run L_Agent.base].
  rewrite forward_heading_0 by first [exact H1 | reflexivity].
  simpl. unfold ret.
  replace (0 + 1 + 1) with 2 by lra.
  replace (0 + 1) with 1 by lra.
  replace (1 + 1) with 2 by lra.
  reflexivity.
Qed.

(** C4: an agent at (0,0) with heading 0, step 1 and angle 90, built with
    the default table on a grammar that expands to ["F[F]F"], is constructed
    without error; it ends at (2,0) with heading 0, and its [trace] shows 3
    polylines, the 2 completed ones followed by the open one, whose last
    point is (2,0).  Both completed entries are the one list object that was
    open until the pop. *)
Theorem F_push_F_pop_F (g : L_Grammar.t) (n : Z)
    (Hexp : L_Grammar.expand g n = "F[F]F") :
  exists self,
    L_Agent.__init__ 0 0 0 L_Agent.default_rules (Some g) 1 90 n
    = (Return tt, Some self)
    /\ SimpleAgent.x (L_Agent.base self) = 2
    /\ SimpleAgent.y (L_Agent.base self) = 0
    /\ SimpleAgent.phi (L_Agent.base self) = 0
    /\ List.length (SimpleAgent._traces (L_Agent.base self)) = 2%nat
    /\ List.length (SimpleAgent.trace (L_Agent.base self)) = 3%nat
    /\ SimpleAgent.trace (L_Agent.base self)
       = map (deref (SimpleAgent.heap (L_Agent.base self)))
             (SimpleAgent._traces (L_Agent.base self))
         ++ [deref (SimpleAgent.heap (L_Agent.base self))
               (SimpleAgent._trace (L_Agent.base self))]
    /\ SimpleAgent.trace (L_Agent.base self)
       = [[(0, 0); (1, 0); (2, 0)]; [(0, 0); (1, 0); (2, 0)]; [(1, 0); (2, 0)]]
    /\ last_point (deref (SimpleAgent.heap (L_Agent.base self))
                     (SimpleAgent._trace (L_Agent.base self)))
       = Some (2, 0).
Proof.
  eexists. split.
  - unfold L_Agent.__init__, L_Agent._process.
    cbn [L_Agent.grammar L_Agent.iterations]. rewrite Hexp.
    rewrite process_F_push_F_pop_F by reflexivity. reflexivity.
  - cbn [L_Agent.base L_Agent.set_base]. repeat split.
Qed.

Lemma F_push_F_pop_F_witness :
  L_Grammar.expand (L_Grammar.mk "F" [("F"%char, "F[F]F")]) 1 = "F[F]F"
  /\ exists self,
       L_Agent.__init__ 0 0 0 L_Agent.default_rules
         (Some (L_Grammar.mk "F" [("F"%char, "F[F]F")])) 1 90 1
       = (Return tt, Some self)
       /\ SimpleAgent.x (L_Agent.base self) = 2
       /\ SimpleAgent.y (L_Agent.base self) = 0
       /\ List.length (SimpleAgent.trace (L_Agent.base self)) = 3%nat.
Proof.
  split; [reflexivity|].
  destruct (F_push_F_pop_F (L_Grammar.mk "F" [("F"%char, "F[F]F")]) 1 eq_refl)
    as (self & H & Hx & Hy & _ & _ & Hn & _).
  exists self. repeat split; assumption.
Defined.

(** ** More about expand *)

Lemma expand_nat (g : L_Grammar.t) (n : Z) :
  L_Grammar.expand g n
  = spec_passes (L_Grammar.rules g) (Z.to_nat n) (L_Grammar.initial g).
Proof.
  destruct (Z.le_gt_cases 0 n) as [Hn|Hn].
  - rewrite <- (Z2Nat.id n Hn) at 1. apply expand_of_nat.
  - unfold L_Grammar.expand, Py.range.
    replace (Z.to_nat n) with 0%nat by lia. reflexivity.
Qed.

Lemma string_app_assoc (s1 s2 s3 : string) :
  ((s1 ++ s2) ++ s3)%string = (s1 ++ (s2 ++ s3))%string.
Proof.
  induction s1 as [|c s1 IH]; simpl; [reflexivity | now rewrite IH].
Qed.

Lemma string_length_app (s1 s2 : string) :
  String.length (s1 ++ s2)%string = (String.length s1 + String.length s2)%nat.
Proof.
  induction s1 as [|c s1 IH]; simpl; [reflexivity | now rewrite IH].
Qed.

Lemma chars_app (s1 s2 : string) :
  Py.chars (s1 ++ s2)%string = Py.chars s1 ++ Py.chars s2.
Proof.
  induction s1 as [|c s1 IH]; simpl; [reflexivity | now rewrite IH].
Qed.

Lemma lookup_in {V : Type} (d : Py.dict V) (k : ascii) (v : V) :
  Py.lookup d k = Some v -> In (k, v) d.
Proof.
  induction d as [|[k' v'] d IH]; simpl; [discriminate|].
  destruct (Ascii.eqb_spec k' k) as [->|_].
  - intros [= ->]. now left.
  - intros H. right. now apply IH.
Qed.

Lemma spec_pass_app (r : Py.dict string) (s1 s2 : string) :
  spec_pass r (s1 ++ s2)%string = (spec_pass r s1 ++ spec_pass r s2)%string.
Proof.
  induction s1 as [|c s1 IH]; simpl; [reflexivity|].
  destruct (Py.lookup r c); rewrite IH; [now rewrite string_app_assoc|].
  reflexivity.
Qed.

Lemma spec_passes_add (r : Py.dict string) (m n : nat) (s : string) :
  spec_passes r (m + n) s = spec_passes r n (spec_passes r m s).
Proof.
  induction n as [|n IH].
  - now rewrite Nat.add_0_r.
  - rewrite Nat.add_succ_r. simpl. now rewrite IH.
Qed.

(** X1: an iteration count that is zero or negative runs no pass:
    [expand] returns the initial string. *)
Theorem expand_nonpositive (g : L_Grammar.t) (n : Z) (Hn : (n <= 0)%Z) :
  L_Grammar.expand g n = L_Grammar.initial g.
Proof.
  rewrite expand_nat. replace (Z.to_nat n) with 0%nat by lia. reflexivity.
Qed.

Lemma expand_nonpositive_witness :
  (-3 <= 0)%Z
  /\ L_Grammar.expand (L_Grammar.mk "F" [("F"%char, "F+F")]) (-3) = "F".
Proof.
  split; [lia|].
  apply (expand_nonpositive (L_Grammar.mk "F" [("F"%char, "F+F")]) (-3)). lia.
Defined.

(** X2: when every character of the initial string either has no rule or
    has the rule that maps it to itself, [expand] returns the initial string
    for every iteration count; an empty mapping is such a case. *)
Theorem expand_fixed (g : L_Grammar.t) (n : Z)
    (Hfix : forall c, In c (Py.chars (L_Grammar.initial g)) ->
              Py.get (L_Grammar.rules g) c (Py.str c) = Py.str c) :
  L_Grammar.expand g n = L_Grammar.initial g.
Proof.
  rewrite expand_nat.
  assert (Hpass : spec_pass (L_Grammar.rules g) (L_Grammar.initial g)
                  = L_Grammar.initial g).
  { revert Hfix. generalize (L_Grammar.initial g) as s.
    induction s as [|c s IH]; intros Hfix; simpl; [reflexivity|].
    pose proof (Hfix c (or_introl eq_refl)) as Hc. unfold Py.get in Hc.
    rewrite IH by (intros c' Hc'; apply Hfix; now right).
    destruct (Py.lookup (L_Grammar.rules g) c); [now rewrite Hc | reflexivity]. }
  induction (Z.to_nat n) as [|k IH]; simpl; [reflexivity|].
  now rewrite IH.
Qed.

Lemma expand_fixed_witness :
  L_Grammar.expand (L_Grammar.mk "F+G" [("F"%char, "F"); ("H"%char, "HH")]) 7
  = "F+G"
  /\ L_Grammar.expand (L_Grammar.mk "F+G" []) 7 = "F+G".
Proof.
  split.
  - apply (expand_fixed
             (L_Grammar.mk "F+G" [("F"%char, "F"); ("H"%char, "HH")]) 7).
    intros c [<-|[<-|[<-|[]]]]; reflexivity.
  - apply (expand_fixed (L_Grammar.mk "F+G" []) 7).
    intros c _. reflexivity.
Defined.

(** X3: rewriting is done character by character, so expanding a
    concatenation gives the concatenation of the expansions. *)
Theorem expand_concat (r : Py.dict string) (s1 s2 : string) (n : Z) :
  L_Grammar.expand (L_Grammar.mk (s1 ++ s2) r) n
  = (L_Grammar.expand (L_Grammar.mk s1 r) n
     ++ L_Grammar.expand (L_Grammar.mk s2 r) n)%string.
Proof.
  rewrite !expand_nat. simpl.
  induction (Z.to_nat n) as [|k IH]; simpl; [reflexivity|].
  now rewrite IH, spec_pass_app.
Qed.

(** X4: for non-negative [m] and [n], expanding [m + n] times is expanding
    [n] times the grammar whose initial string is the [m]-th expansion. *)
Theorem expand_add (g : L_Grammar.t) (m n : Z)
    (Hm : (0 <= m)%Z) (Hn : (0 <= n)%Z) :
  L_Grammar.expand g (m + n)
  = L_Grammar.expand
      (L_Grammar.mk (L_Grammar.expand g m) (L_Grammar.rules g)) n.
Proof.
  rewrite !expand_nat. simpl.
  rewrite Z2Nat.inj_add by assumption. apply spec_passes_add.
Qed.

Lemma expand_add_witness :
  (0 <= 1)%Z /\ (0 <= 2)%Z
  /\ L_Grammar.expand (L_Grammar.mk "F" [("F"%char, "F+F")]) (1 + 2)
     = L_Grammar.expand (L_Grammar.mk "F+F" [("F"%char, "F+F")]) 2.
Proof.
  split; [lia|]. split; [lia|].
  apply (expand_add (L_Grammar.mk "F" [("F"%char, "F+F")]) 1 2); lia.
Defined.

Lemma spec_pass_length (r : Py.dict string) (K : nat) (s : string) :
  (1 <= K)%nat ->
  (forall k v, In (k, v) r -> (String.length v <= K)%nat) ->
  (String.length (spec_pass r s) <= K * String.length s)%nat.
Proof.
  intros HK Hr. induction s as [|c s IH]; simpl; [lia|].
  destruct (Py.lookup r c) as [w|] eqn:E.
  - apply lookup_in in E. apply Hr in E. rewrite string_length_app. nia.
  - simpl. nia.
Qed.

(** X5: when no replacement string is longer than [K] (with [K >= 1]), the
    expansion after [n] passes is at most [K^n] times as long as the initial
    string. *)
Theorem expand_length_bound (g : L_Grammar.t) (K : nat) (n : Z)
    (HK : (1 <= K)%nat)
    (Hr : forall k v, In (k, v) (L_Grammar.rules g) ->
            (String.length v <= K)%nat) :
  (String.length (L_Grammar.expand g n)
   <= K ^ Z.to_nat n * String.length (L_Grammar.initial g))%nat.
Proof.
  rewrite expand_nat.
  induction (Z.to_nat n) as [|k IH]; simpl; [lia|].
  pose proof (spec_pass_length (L_Grammar.rules g) K
                (spec_passes (L_Grammar.rules g) k (L_Grammar.initial g))
                HK Hr) as H.
  nia.
Qed.

Lemma expand_length_bound_witness :
  (String.length (L_Grammar.expand
                    (L_Grammar.mk "F+F" [("F"%char, "F-F")]) 2)
   <= 3 ^ 2 * 3)%nat.
Proof.
  apply (expand_length_bound (L_Grammar.mk "F+F" [("F"%char, "F-F")]) 3 2).
  - lia.
  - intros k v [[= <- <-]|[]]. simpl. lia.
Defined.

Lemma spec_pass_chars (r : Py.dict string) (s : string) (c : ascii) :
  In c (Py.chars (spec_pass r s)) ->
  In c (Py.chars s) \/ In c (replacement_chars r).
Proof.
  induction s as [|c' s IH]; simpl; [tauto|].
  destruct (Py.lookup r c') as [w|] eqn:E.
  - rewrite chars_app, in_app_iff. intros [H|H].
    + right. unfold replacement_chars. apply in_flat_map.
      exists (c', w). split; [now apply lookup_in | exact H].
    + destruct (IH H); tauto.
  - simpl. intros [H|H]; [tauto|]. destruct (IH H); tauto.
Qed.

Lemma expand_chars (g : L_Grammar.t) (n : Z) (c : ascii) :
  In c (Py.chars (L_Grammar.expand g n)) ->
  In c (Py.chars (L_Grammar.initial g))
  \/ In c (replacement_chars (L_Grammar.rules g)).
Proof.
  intros Hc. rewrite expand_nat in Hc. revert Hc.
  induction (Z.to_nat n) as [|k IH]; simpl; [tauto|].
  intros H. apply spec_pass_chars in H. destruct H as [H|H]; [|tauto].
  now apply IH.
Qed.

(** X6: rewriting introduces no new symbols: every character of an
    expansion occurs in the initial string or in a replacement string of the
    rules. *)
Theorem expand_alphabet (g : L_Grammar.t) (n : Z) (c : ascii)
    (Hc : In c (Py.chars (L_Grammar.expand g n))) :
  In c (Py.chars (L_Grammar.initial g))
  \/ In c (replacement_chars (L_Grammar.rules g)).
Proof.
  now apply (expand_chars g n).
Qed.

Lemma expand_alphabet_witness :
  In "["%char
     (Py.chars (L_Grammar.expand (L_Grammar.mk "X" [("X"%char, "F[X]")]) 2))
  /\ (In "["%char (Py.chars "X")
      \/ In "["%char (replacement_chars [("X"%char, "F[X]")])).
Proof.
  assert (H : In "["%char
                (Py.chars (L_Grammar.expand
                             (L_Grammar.mk "X" [("X"%char, "F[X]")]) 2))).
  { simpl. tauto. }
  split; [exact H|].
  exact (expand_alphabet (L_Grammar.mk "X" [("X"%char, "F[X]")]) 2 "[" H).
Defined.

(** ** How the operations fail *)

Lemma forward_cases (r : R) (s : SimpleAgent.t) :
  (r >= 0 /\ exists s', SimpleAgent.forward r s = (Return tt, s'))
  \/ (r < 0
      /\ SimpleAgent.forward r s = (Raise (AssertionError distance_msg), s)).
Proof.
  destruct (Rge_dec r 0) as [Hr|Hr].
  - left. split; [assumption|]. eexists. now apply forward_ok.
  - right. split; [lra|]. apply forward_negative. lra.
Qed.

Lemma pop_cases (s : SimpleAgent.t) :
  (SimpleAgent._state s = [] /\ SimpleAgent.pop s = (Raise IndexError, s))
  \/ (exists rest x' y' phi',
        SimpleAgent._state s = rest ++ [(x', y', phi')]
        /\ SimpleAgent.pop s
           = (Return tt,
              SimpleAgent.mk x' y' phi' (List.length (SimpleAgent.heap s)) rest
                (SimpleAgent._traces s ++ [SimpleAgent._trace s])
                (SimpleAgent.heap s ++ [[(x', y')]]))).
Proof.
  destruct (Py.pop (SimpleAgent._state s)) as [[[[x' y'] phi'] rest]|] eqn:E.
  - right. apply pop_some in E. exists rest, x', y', phi'.
    split; [assumption | now apply pop_nonempty].
  - left. apply pop_none in E. split; [assumption | now apply pop_empty].
Qed.

Lemma run_raise (o : operation) (s s' : SimpleAgent.t) (e : exn) :
  run o s = (Raise e, s') ->
  s' = s /\ (e = AssertionError distance_msg \/ e = IndexError).
Proof.
  destruct o; cbn [run].
  - destruct (forward_cases r s) as [(_ & s1 & H)|(_ & H)]; rewrite H;
      [discriminate|]. intros [= <- <-]. auto.
  - unfold SimpleAgent.backward.
    destruct (forward_cases (-1 * r) s) as [(_ & s1 & H)|(_ & H)]; rewrite H;
      [discriminate|]. intros [= <- <-]. auto.
  - discriminate.
  - discriminate.
  - destruct (pop_cases s) as [(_ & H)|(rest & x' & y' & phi' & _ & H)];
      rewrite H; [|discriminate]. intros [= <- <-]. auto.
  - discriminate.
Qed.

Lemma dispatch_default_raise (c : ascii) (self self' : L_Agent.t) (e : exn) :
  L_Agent.rules self = L_Agent.default_rules ->
  L_Agent.dispatch c self = (Raise e, self') ->
  self' = self
  /\ (e = AssertionError distance_msg \/ e = IndexError
      \/ (e = AttributeError "back" /\ c = "B"%char)
      \/ (e = KeyError c /\ Py.lookup L_Agent.default_rules c = None)).
Proof.
  intros Hr. rewrite dispatch_default by assumption.
  destruct (default_operation _ _ c) as [o|] eqn:Eo.
  - unfold L_Agent.on_base.
    destruct (run o (L_Agent.base self)) as [[[]|e1] b] eqn:Eb; [discriminate|].
    apply run_raise in Eb. destruct Eb as [-> He].
    intros [= <- <-]. rewrite set_base_base. split; [reflexivity|].
    destruct He; auto.
  - destruct (Ascii.eqb_spec "B" c) as [<-|HB].
    + intros [= <- <-]. split; [reflexivity|]. right. right. left.
      split; reflexivity.
    + intros [= <- <-]. split; [reflexivity|]. right. right. right.
      split; [reflexivity|]. revert Eo HB.
      unfold default_operation, L_Agent.default_rules. cbn [Py.lookup].
      destruct (Ascii.eqb_spec "B" c) as [->|_]; [congruence|].
      repeat match goal with
             | |- context [Ascii.eqb ?k c] => destruct (Ascii.eqb k c)
             end; try discriminate. reflexivity.
Qed.

Lemma dispatch_default_rules (c : ascii) (self self' : L_Agent.t)
    (o : outcome unit) :
  L_Agent.dispatch c self = (o, self') ->
  L_Agent.rules self' = L_Agent.rules self
  /\ L_Agent.step self' = L_Agent.step self
  /\ L_Agent.dphi self' = L_Agent.dphi self.
Proof.
  intros H. destruct (dispatch_frame c self) as [b Hb].
  rewrite H in Hb. simpl in Hb. subst self'. auto.
Qed.

Lemma for_dispatch_default_raise (cs : list ascii) :
  forall (self self' : L_Agent.t) (e : exn),
    L_Agent.rules self = L_Agent.default_rules ->
    for_ cs L_Agent.dispatch self = (Raise e, self') ->
    e = AssertionError distance_msg \/ e = IndexError
    \/ (e = AttributeError "back" /\ In "B"%char cs)
    \/ (exists c, e = KeyError c /\ In c cs
                  /\ Py.lookup L_Agent.default_rules c = None).
Proof.
  induction cs as [|c cs IH]; intros self self' e Hr; simpl.
  - discriminate.
  - unfold bind. destruct (L_Agent.dispatch c self) as [[[]|e1] s1] eqn:E.
    + intros H. apply dispatch_default_rules in E. destruct E as (E & _).
      apply IH in H; [|congruence].
      destruct H as [H|[H|[[H1 H2]|(c' & H1 & H2 & H3)]]].
      * now left.
      * right. now left.
      * right. right. left. split; [assumption | now right].
      * right. right. right. exists c'.
        split; [assumption|]. split; [now right | assumption].
    + intros [= <- <-]. apply dispatch_default_raise in E; [|assumption].
      destruct E as [_ [H|[H|[[H1 H2]|[H1 H2]]]]].
      * now left.
      * right. now left.
      * right. right. left. split; [assumption | now left].
      * right. right. right. exists c.
        split; [assumption|]. split; [now left | assumption].
Qed.

(** X9: an operation that raises leaves the agent exactly as it was, and
    the only errors of the operations are the assertion of [forward] and the
    [IndexError] of [pop].  So when an agent with the default table raises
    while it interprets a command string, the exception is one of: that
    assertion error, that [IndexError], [AttributeError] for [back] with [B]
    among the symbols, or [KeyError] for a symbol of the string that is not
    in the table. *)
Theorem failures_of_interpretation :
  (forall o s s' e,
     run o s = (Raise e, s') ->
     s' = s /\ (e = AssertionError distance_msg \/ e = IndexError))
  /\ (forall cs self self' e,
        L_Agent.rules self = L_Agent.default_rules ->
        for_ cs L_Agent.dispatch self = (Raise e, self') ->
        e = AssertionError distance_msg \/ e = IndexError
        \/ (e = AttributeError "back" /\ In "B"%char cs)
        \/ (exists c, e = KeyError c /\ In c cs
                      /\ Py.lookup L_Agent.default_rules c = None)).
Proof.
  split; [exact run_raise | exact for_dispatch_default_raise].
Qed.

Lemma failures_of_interpretation_witness :
  run Pop (SimpleAgent.__init__ 0 0 0)
  = (Raise IndexError, SimpleAgent.__init__ 0 0 0)
  /\ (IndexError = AssertionError distance_msg \/ IndexError = IndexError).
Proof.
  split; [reflexivity|].
  exact (proj2 (proj1 failures_of_interpretation Pop
                  (SimpleAgent.__init__ 0 0 0) (SimpleAgent.__init__ 0 0 0)
                  IndexError eq_refl)).
Defined.

(** ** The state stack *)

Lemma run_return_stack (o : operation) (s s' : SimpleAgent.t) :
  run o s = (Return tt, s') ->
  match o with
  | Push =>
      SimpleAgent._state s'
      = SimpleAgent._state s
          ++ [(SimpleAgent.x s, SimpleAgent.y s, SimpleAgent.phi s)]
      /\ SimpleAgent.x s' = SimpleAgent.x s
      /\ SimpleAgent.y s' = SimpleAgent.y s
      /\ SimpleAgent.phi s' = SimpleAgent.phi s
  | Pop =>
      SimpleAgent._state s
      = SimpleAgent._state s'
          ++ [(SimpleAgent.x s', SimpleAgent.y s', SimpleAgent.phi s')]
  | _ => SimpleAgent._state s' = SimpleAgent._state s
  end.
Proof.
  destruct o; cbn [run].
  - destruct (forward_cases r s) as [(Hr & s1 & H)|(_ & H)]; rewrite H;
      [|discriminate]. rewrite forward_ok in H by assumption.
    intros [= <-]. now injection H as <-.
  - unfold SimpleAgent.backward.
    destruct (forward_cases (-1 * r) s) as [(Hr & s1 & H)|(_ & H)]; rewrite H;
      [|discriminate]. rewrite forward_ok in H by assumption.
    intros [= <-]. now injection H as <-.
  - now intros [= <-].
  - rewrite push_eq. intros [= <-]. simpl. auto.
  - destruct (pop_cases s) as [(_ & H)|(rest & x' & y' & phi' & Hs & H)];
      rewrite H; [discriminate|]. intros [= <-]. exact Hs.
  - now intros [= <-].
Qed.

Lemma snoc_of_length {A : Type} (u : list A) (d : nat) :
  List.length u = S d -> exists u' a, u = u' ++ [a] /\ List.length u' = d.
Proof.
  intros H. destruct (Py.pop u) as [[a u']|] eqn:E.
  - apply pop_some in E. exists u', a. split; [assumption|].
    subst u. rewrite length_app in H. simpl in H. lia.
  - apply pop_none in E. subst u. discriminate.
Qed.

(** A sequence of operations that returns touches only the part of the stack
    above the depth it starts at. *)
Lemma stack_frame (ops : list operation) :
  forall (d d' : nat) (s s' : SimpleAgent.t) (st u : list (R * R * R)),
    depth_after d ops = Some d' ->
    SimpleAgent._state s = st ++ u -> List.length u = d ->
    for_ ops run s = (Return tt, s') ->
    exists u', SimpleAgent._state s' = st ++ u' /\ List.length u' = d'.
Proof.
  induction ops as [|o ops IH]; intros d d' s s' st u Hd Hs Hu; simpl.
  - intros [= <-]. simpl in Hd. injection Hd as <-. now exists u.
  - unfold bind. destruct (run o s) as [[[]|e] s1] eqn:E; [|discriminate].
    intros H. apply run_return_stack in E.
    destruct o; cbn [depth_after] in Hd;
      try (apply (IH d d' s1 s' st u Hd); [congruence | assumption | assumption]).
    + destruct E as (E & _).
      apply (IH (S d) d' s1 s' st
               (u ++ [(SimpleAgent.x s, SimpleAgent.y s, SimpleAgent.phi s)]) Hd);
        [|rewrite length_app; simpl; lia | assumption].
      rewrite E, Hs. now rewrite app_assoc.
    + destruct d as [|d1]; [discriminate|].
      destruct (snoc_of_length u d1 Hu) as (u1 & t & -> & Hu1).
      apply (IH d1 d' s1 s' st u1 Hd); [|assumption|assumption].
      rewrite Hs, app_assoc in E. now apply app_inj_tail in E.
Qed.

(** X10: when the operations between a push and a pop leave the stack depth
    as they found it and never go below it, the pop restores the position
    and the heading that the push saved, and the stack is as before the
    push, whatever moves and turns came between. *)
Theorem push_pop_restores (w : list operation) (s s' : SimpleAgent.t)
    (Hw : depth_after 0 w = Some 0%nat)
    (Hrun : for_ (Push :: w ++ [Pop]) run s = (Return tt, s')) :
  SimpleAgent.x s' = SimpleAgent.x s
  /\ SimpleAgent.y s' = SimpleAgent.y s
  /\ SimpleAgent.phi s' = SimpleAgent.phi s
  /\ SimpleAgent._state s' = SimpleAgent._state s.
Proof.
  cbn [for_] in Hrun. unfold bind at 1 in Hrun. cbn [run] in Hrun.
  rewrite push_eq, for_app in Hrun.
  match type of Hrun with
  | context [for_ w run ?s0] =>
      destruct (for_ w run s0) as [[[]|e] s1] eqn:E; [|discriminate];
      destruct (stack_frame w 0 0 s0 s1
                  (SimpleAgent._state s
                     ++ [(SimpleAgent.x s, SimpleAgent.y s, SimpleAgent.phi s)])
                  [] Hw) as (u' & Hs1 & Hu');
      [simpl; now rewrite app_nil_r | reflexivity | exact E |]
  end.
  destruct u'; [|discriminate]. rewrite app_nil_r in Hs1.
  cbn [for_] in Hrun. unfold bind in Hrun. cbn [run] in Hrun.
  rewrite (pop_nonempty s1 _ _ _ _ Hs1) in Hrun.
  injection Hrun as <-. simpl. auto.
Qed.

Lemma push_pop_restores_witness :
  depth_after 0 [Rotate 30; Push; Rotate 5; Pop] = Some 0%nat
  /\ exists s',
       for_ (Push :: [Rotate 30; Push; Rotate 5; Pop] ++ [Pop]) run
         (SimpleAgent.__init__ 1 2 0) = (Return tt, s')
       /\ SimpleAgent.x s' = 1 /\ SimpleAgent.y s' = 2
       /\ SimpleAgent.phi s' = 0.
Proof.
  split; [reflexivity|].
  assert (Ho : fst (for_ (Push :: [Rotate 30; Push; Rotate 5; Pop] ++ [Pop])
                      run (SimpleAgent.__init__ 1 2 0)) = Return tt)
    by reflexivity.
  destruct (for_ (Push :: [Rotate 30; Push; Rotate 5; Pop] ++ [Pop]) run
              (SimpleAgent.__init__ 1 2 0)) as [o s1] eqn:E.
  simpl in Ho. subst o. exists s1. split; [reflexivity|].
  destruct (push_pop_restores [Rotate 30; Push; Rotate 5; Pop]
              (SimpleAgent.__init__ 1 2 0) s1 eq_refl E)
    as (Hx & Hy & Hp & _).
  auto.
Defined.

Lemma run_return_depth (o : operation) (s s' : SimpleAgent.t) :
  run o s = (Return tt, s') ->
  depth_after (List.length (SimpleAgent._state s)) [o]
  = Some (List.length (SimpleAgent._state s')).
Proof.
  intros H. apply run_return_stack in H. destruct o; cbn [depth_after];
    try (now rewrite H).
  - destruct H as (H & _). rewrite H, length_app. simpl. f_equal. lia.
  - rewrite H, length_app. simpl.
    replace (List.length (SimpleAgent._state s') + 1)%nat
      with (S (List.length (SimpleAgent._state s'))) by lia.
    reflexivity.
Qed.

Lemma depth_after_cons (d : nat) (o : operation) (ops : list operation) :
  depth_after d (o :: ops)
  = match depth_after d [o] with
    | Some d1 => depth_after d1 ops
    | None => None
    end.
Proof.
  destruct o; cbn [depth_after]; try reflexivity. now destruct d.
Qed.

Lemma run_returns_iff (o : operation) (s : SimpleAgent.t) :
  distance_ok o ->
  ((exists s', run o s = (Return tt, s'))
   <-> depth_after (List.length (SimpleAgent._state s)) [o] <> None).
Proof.
  intros Hd. destruct o; cbn [run depth_after distance_ok] in *.
  - split; [discriminate|]. intros _. eexists. now apply forward_ok.
  - split; [discriminate|]. intros _. eexists.
    unfold SimpleAgent.backward. apply forward_ok. lra.
  - split; [discriminate|]. intros _. now eexists.
  - split; [discriminate|]. intros _. now eexists.
  - destruct (pop_cases s) as [(Hs & H)|(rest & x' & y' & phi' & Hs & H)];
      rewrite H, Hs.
    + simpl. split; [intros (s' & [=]) | congruence].
    + rewrite length_app. simpl.
      replace (List.length rest + 1)%nat with (S (List.length rest)) by lia.
      split; [discriminate|]. intros _. now eexists.
  - split; [discriminate|]. intros _. now eexists.
Qed.

Lemma operations_return_iff_no_underflow_aux (ops : list operation)
    (s : SimpleAgent.t) :
  Forall distance_ok ops ->
  ((exists s', for_ ops run s = (Return tt, s'))
   <-> depth_after (List.length (SimpleAgent._state s)) ops <> None).
Proof.
  intros Hd. revert s. induction Hd as [|o ops Ho Hops IH]; intros s.
  - simpl. split; [discriminate|]. intros _. now eexists.
  - rewrite depth_after_cons. cbn [for_]. unfold bind.
    pose proof (run_returns_iff o s Ho) as Hiff.
    destruct (run o s) as [[[]|e] s1] eqn:E.
    + rewrite (run_return_depth _ _ _ E). apply IH.
    + split.
      * intros (s' & [=]).
      * intros H. exfalso.
        destruct (depth_after (List.length (SimpleAgent._state s)) [o]);
          [|congruence].
        destruct (proj2 Hiff ltac:(discriminate)) as (s' & [=]).
Qed.

(** X11: a sequence of operations whose distances pass the assertion of
    [forward] returns exactly when no pop of the sequence finds the stack
    empty; in particular a sequence with matched pushes and pops never
    raises. *)
Theorem operations_return_iff_no_underflow (ops : list operation)
    (s : SimpleAgent.t) (Hd : Forall distance_ok ops) :
  (exists s', for_ ops run s = (Return tt, s'))
  <-> depth_after (List.length (SimpleAgent._state s)) ops <> None.
Proof.
  now apply operations_return_iff_no_underflow_aux.
Qed.

Lemma operations_return_iff_no_underflow_witness :
  Forall distance_ok [Forward 1; Push; Forward 1; Pop; Rotate 90]
  /\ exists s',
       for_ [Forward 1; Push; Forward 1; Pop; Rotate 90] run
         (SimpleAgent.__init__ 0 0 0) = (Return tt, s').
Proof.
  assert (H : Forall distance_ok [Forward 1; Push; Forward 1; Pop; Rotate 90]).
  { repeat (apply Forall_cons; [simpl; first [lra | exact I]|]).
    apply Forall_nil. }
  split; [exact H|].
  apply (operations_return_iff_no_underflow _ (SimpleAgent.__init__ 0 0 0) H).
  discriminate.
Defined.

(** ** The default table as a map to operations *)

Lemma interpret_default_operations (cs : list ascii) :
  forall (ops : list operation) (self : L_Agent.t),
    L_Agent.rules self = L_Agent.default_rules ->
    default_operations (L_Agent.step self) (L_Agent.dphi self) cs = Some ops ->
    for_ cs L_Agent.dispatch self = L_Agent.on_base (for_ ops run) self.
Proof.
  induction cs as [|c cs IH]; intros ops self Hr; cbn [default_operations].
  - intros [= <-]. unfold L_Agent.on_base. simpl. unfold ret.
    now rewrite set_base_base.
  - destruct (default_operation _ _ c) as [o|] eqn:Eo; [|discriminate].
    destruct (default_operations _ _ cs) as [ops'|] eqn:Eops; [|discriminate].
    intros [= <-]. cbn [for_]. unfold bind.
    rewrite dispatch_default, Eo by assumption.
    unfold L_Agent.on_base. unfold bind.
    destruct (run o (L_Agent.base self)) as [[[]|e] b]; [|reflexivity].
    rewrite (IH ops' (L_Agent.set_base b self)); [|exact Hr|exact Eops].
    unfold L_Agent.on_base. cbn [L_Agent.base L_Agent.set_base].
    now destruct (for_ ops' run b).
Qed.

Lemma interpret_returns_operations (cs : list ascii) :
  forall self self' : L_Agent.t,
    L_Agent.rules self = L_Agent.default_rules ->
    for_ cs L_Agent.dispatch self = (Return tt, self') ->
    exists ops,
      default_operations (L_Agent.step self) (L_Agent.dphi self) cs = Some ops.
Proof.
  induction cs as [|c cs IH]; intros self self' Hr; cbn [default_operations].
  - intros _. now eexists.
  - cbn [for_]. unfold bind. rewrite dispatch_default by assumption.
    destruct (default_operation _ _ c) as [o|];
      [|destruct (Ascii.eqb "B" c); discriminate].
    unfold L_Agent.on_base at 1.
    destruct (run o (L_Agent.base self)) as [[[]|e] b]; [|discriminate].
    intros H. apply IH in H; [|exact Hr]. destruct H as [ops' H].
    cbn [L_Agent.step L_Agent.dphi L_Agent.set_base] in H. rewrite H.
    now eexists.
Qed.

Lemma default_operations_distance_ok (d a : R) (cs : list ascii) :
  d >= 0 ->
  forall ops, default_operations d a cs = Some ops -> Forall distance_ok ops.
Proof.
  intros Hd. induction cs as [|c cs IH]; intros ops; cbn [default_operations].
  - intros [= <-]. constructor.
  - destruct (default_operation d a c) as [o|] eqn:Eo; [|discriminate].
    destruct (default_operations d a cs) as [ops'|]; [|discriminate].
    intros [= <-]. constructor; [|now apply IH].
    revert Eo. unfold default_operation.
    repeat match goal with
           | |- context [Ascii.eqb ?k c] => destruct (Ascii.eqb k c)
           end; try discriminate; intros [= <-]; simpl; auto.
Qed.

(** X12: the default table turns a command string over [F + - X Y [ ]] into
    a sequence of operations, and the construction of an agent with that
    table does exactly what running that sequence on a fresh turtle does,
    with the same outcome. *)
Theorem construction_runs_default_operations
    (x0 y0 phi0 step phi : R) (g : L_Grammar.t) (n : Z)
    (ops : list operation)
    (Hops : default_operations step phi (Py.chars (L_Grammar.expand g n))
            = Some ops) :
  L_Agent.__init__ x0 y0 phi0 L_Agent.default_rules (Some g) step phi n
  = (fst (for_ ops run (SimpleAgent.__init__ x0 y0 phi0)),
     Some (L_Agent.mk (snd (for_ ops run (SimpleAgent.__init__ x0 y0 phi0)))
             step phi L_Agent.default_rules n g)).
Proof.
  unfold L_Agent.__init__, L_Agent._process.
  cbn [L_Agent.grammar L_Agent.iterations].
  rewrite (interpret_default_operations _ ops); [|reflexivity|exact Hops].
  unfold L_Agent.on_base. cbn [L_Agent.base L_Agent.set_base L_Agent.step
    L_Agent.dphi L_Agent.rules L_Agent.iterations L_Agent.grammar].
  now destruct (for_ ops run _).
Qed.

Lemma construction_runs_default_operations_witness :
  default_operations 1 90
    (Py.chars (L_Grammar.expand (L_Grammar.mk "X" [("X"%char, "[-X]+")]) 1))
  = Some [Push; Rotate 90; Noop; Pop; Rotate (- (90))]
  /\ L_Agent.__init__ 0 0 0 L_Agent.default_rules
       (Some (L_Grammar.mk "X" [("X"%char, "[-X]+")])) 1 90 1
     = (Return tt,
        Some (L_Agent.mk
                (snd (for_ [Push; Rotate 90; Noop; Pop; Rotate (- (90))] run
                        (SimpleAgent.__init__ 0 0 0)))
                1 90 L_Agent.default_rules 1
                (L_Grammar.mk "X" [("X"%char, "[-X]+")]))).
Proof.
  split; [reflexivity|].
  exact (construction_runs_default_operations 0 0 0 1 90
           (L_Grammar.mk "X" [("X"%char, "[-X]+")]) 1
           [Push; Rotate 90; Noop; Pop; Rotate (- (90))] eq_refl).
Defined.

(** X13: with a non-negative step, the construction of an agent with the
    default table returns exactly when every symbol of the command string is
    one of [F + - X Y [ ]] and no []] comes without an open [[] before it. *)
Theorem construction_returns_iff_well_formed
    (x0 y0 phi0 step phi : R) (g : L_Grammar.t) (n : Z) (Hstep : step >= 0) :
  (exists self,
     L_Agent.__init__ x0 y0 phi0 L_Agent.default_rules (Some g) step phi n
     = (Return tt, Some self))
  <-> (exists ops,
         default_operations step phi (Py.chars (L_Grammar.expand g n))
         = Some ops
         /\ depth_after 0 ops <> None).
Proof.
  unfold L_Agent.__init__, L_Agent._process.
  cbn [L_Agent.grammar L_Agent.iterations].
  set (cs := Py.chars (L_Grammar.expand g n)).
  set (self0 := L_Agent.mk (SimpleAgent.__init__ x0 y0 phi0) step phi
                  L_Agent.default_rules n g).
  split.
  - intros (self & H).
    destruct (for_ cs L_Agent.dispatch self0) as [o s1] eqn:E.
    injection H as -> _.
    destruct (interpret_returns_operations cs self0 s1 eq_refl E) as [ops Hops].
    exists ops. split; [exact Hops|].
    rewrite (interpret_default_operations cs ops self0 eq_refl Hops) in E.
    unfold L_Agent.on_base in E. cbn [L_Agent.base self0] in E.
    destruct (for_ ops run (SimpleAgent.__init__ x0 y0 phi0)) as [o2 b] eqn:E2.
    injection E as -> _.
    apply (operations_return_iff_no_underflow_aux ops
             (SimpleAgent.__init__ x0 y0 phi0)).
    + exact (default_operations_distance_ok step phi cs Hstep ops Hops).
    + now exists b.
  - intros (ops & Hops & Hdepth).
    rewrite (interpret_default_operations cs ops self0 eq_refl Hops).
    unfold L_Agent.on_base. cbn [L_Agent.base self0].
    destruct (proj2 (operations_return_iff_no_underflow_aux ops
                       (SimpleAgent.__init__ x0 y0 phi0)
                       (default_operations_distance_ok step phi cs Hstep ops
                          Hops)) Hdepth) as (b & Hb).
    rewrite Hb. now eexists.
Qed.

Lemma construction_returns_iff_well_formed_witness :
  1 >= 0
  /\ exists self,
       L_Agent.__init__ 0 0 0 L_Agent.default_rules
         (Some (L_Grammar.mk "F[+F]X" [])) 1 90 0
       = (Return tt, Some self).
Proof.
  assert (H : 1 >= 0) by lra.
  split; [exact H|].
  apply (construction_returns_iff_well_formed 0 0 0 1 90
           (L_Grammar.mk "F[+F]X" []) 0 H).
  eexists. split; [reflexivity|]. simpl. discriminate.
Defined.

(** ** Invariants of the turtle *)

Lemma for_run_invariant (P : SimpleAgent.t -> Prop) :
  (forall o s, P s -> P (snd (run o s))) ->
  forall ops s, P s -> P (snd (for_ ops run s)).
Proof.
  intros Hrun. induction ops as [|o ops IH]; intros s HP; simpl; [assumption|].
  unfold bind. pose proof (Hrun o s HP) as H1.
  destruct (run o s) as [[[]|e] s1]; simpl in *; [now apply IH | assumption].
Qed.

Lemma default_rules_preserve (P : SimpleAgent.t -> Prop) :
  (forall o s, P s -> P (snd (run o s))) ->
  forall c f, Py.lookup L_Agent.default_rules c = Some f ->
    forall d a b, P b -> P (snd (f d a b)).
Proof.
  intros Hrun c f. unfold L_Agent.default_rules. cbn [Py.lookup].
  repeat match goal with
         | |- context [Ascii.eqb ?k c] => destruct (Ascii.eqb k c)
         end; try discriminate; intros [= <-] d a b H.
  - exact (Hrun (Forward d) b H).
  - exact H.
  - exact (Hrun (Rotate (- a)) b H).
  - exact (Hrun (Rotate a) b H).
  - exact (Hrun Noop b H).
  - exact (Hrun Noop b H).
  - exact (Hrun Push b H).
  - exact (Hrun Pop b H).
Qed.

Lemma last_point_snoc (l : polyline) (p : point) :
  last_point (l ++ [p]) = Some p.
Proof.
  unfold last_point. now rewrite rev_unit.
Qed.

Lemma open_ends_run (o : operation) (s : SimpleAgent.t) :
  valid_refs s /\ open_ends_at_position s ->
  valid_refs (snd (run o s)) /\ open_ends_at_position (snd (run o s)).
Proof.
  intros [Hv He]. split; [now apply valid_refs_run|].
  assert (Hfw : forall r, open_ends_at_position (snd (SimpleAgent.forward r s))).
  { intros r. destruct (forward_cases r s) as [(Hr & s1 & H)|(_ & H)].
    - rewrite forward_ok by assumption. unfold open_ends_at_position. simpl.
      rewrite deref_append_at_same by (now apply valid_refs_open).
      apply last_point_snoc.
    - now rewrite H. }
  destruct o; cbn [run].
  - apply Hfw.
  - apply Hfw.
  - exact He.
  - exact He.
  - destruct (pop_cases s) as [(_ & H)|(rest & x' & y' & phi' & _ & H)];
      rewrite H; [exact He|].
    unfold open_ends_at_position. simpl. now rewrite deref_alloc_new.
  - exact He.
Qed.

(** X14: in every agent that the program reaches, the open polyline ends at
    the position of the turtle: after any sequence of operations on a fresh
    agent, returning or raising, and in the agent that a construction with
    the default table leaves. *)
Theorem open_polyline_ends_at_position :
  (forall x0 y0 phi0 ops,
     open_ends_at_position
       (snd (for_ ops run (SimpleAgent.__init__ x0 y0 phi0))))
  /\ (forall x0 y0 phi0 g step phi n o self,
        L_Agent.__init__ x0 y0 phi0 L_Agent.default_rules (Some g) step phi n
        = (o, Some self) ->
        open_ends_at_position (L_Agent.base self)).
Proof.
  assert (Hinit : forall x0 y0 phi0,
             valid_refs (SimpleAgent.__init__ x0 y0 phi0)
             /\ open_ends_at_position (SimpleAgent.__init__ x0 y0 phi0)).
  { intros. split; [apply valid_refs_init | reflexivity]. }
  split.
  - intros x0 y0 phi0 ops.
    apply (for_run_invariant
             (fun s => valid_refs s /\ open_ends_at_position s) open_ends_run).
    apply Hinit.
  - intros x0 y0 phi0 g step phi n o self H.
    unfold L_Agent.__init__, L_Agent._process in H.
    match type of H with
    | (let (_, _) := for_ ?l ?f ?s in _) = _ =>
        pose proof (for_dispatch_invariant
                      (fun b => valid_refs b /\ open_ends_at_position b) l s
                      (default_rules_preserve _ open_ends_run)
                      (Hinit x0 y0 phi0)) as HI;
        destruct (for_ l f s) as [o1 s1]
    end.
    injection H as _ <-. apply HI.
Qed.

Lemma open_polyline_ends_at_position_witness :
  open_ends_at_position
    (snd (for_ [Push; Rotate 90; Pop] run (SimpleAgent.__init__ 3 4 0))).
Proof.
  exact (proj1 open_polyline_ends_at_position 3 4 0 [Push; Rotate 90; Pop]).
Defined.

(** ** Polylines are shared, not copied *)

(** X15: [push] archives the open polyline itself, not a copy: after a push
    and a forward, the last archived polyline and the open polyline are the
    same list, and both hold the point that the forward added. *)
Theorem push_archives_by_reference (s : SimpleAgent.t) (d : R)
    (Hd : d >= 0) (Hv : valid_refs s) :
  exists s',
    (SimpleAgent.push ;; SimpleAgent.forward d) s = (Return tt, s')
    /\ SimpleAgent.trace s'
       = map (deref (SimpleAgent.heap s')) (SimpleAgent._traces s)
         ++ [deref (SimpleAgent.heap s) (SimpleAgent._trace s)
               ++ [(SimpleAgent.x s', SimpleAgent.y s')];
             deref (SimpleAgent.heap s) (SimpleAgent._trace s)
               ++ [(SimpleAgent.x s', SimpleAgent.y s')]].
Proof.
  unfold bind. rewrite push_eq. eexists. split; [now apply forward_ok|].
  unfold SimpleAgent.trace, SimpleAgent.trace_refs. simpl.
  rewrite !map_app. simpl.
  rewrite deref_append_at_same by (now apply valid_refs_open).
  now rewrite <- app_assoc.
Qed.

Lemma push_archives_by_reference_witness :
  1 >= 0 /\ valid_refs (SimpleAgent.__init__ 0 0 0)
  /\ exists s',
       (SimpleAgent.push ;; SimpleAgent.forward 1) (SimpleAgent.__init__ 0 0 0)
       = (Return tt, s')
       /\ SimpleAgent.trace s'
          = [[(0, 0); (SimpleAgent.x s', SimpleAgent.y s')];
             [(0, 0); (SimpleAgent.x s', SimpleAgent.y s')]].
Proof.
  assert (H : 1 >= 0) by lra.
  split; [exact H|]. split; [apply valid_refs_init|].
  destruct (push_archives_by_reference (SimpleAgent.__init__ 0 0 0) 1 H
              (valid_refs_init 0 0 0)) as (s' & Hrun & Htr).
  exists s'. split; [exact Hrun | exact Htr].
Defined.

Lemma map_deref_append_at_fresh (h : heap_t) (a : addr) (p : point)
    (refs : list addr) :
  ~ In a refs -> map (deref (append_at h a p)) refs = map (deref h) refs.
Proof.
  intros H. apply map_ext_in. intros b Hb.
  apply deref_append_at_other. intros ->. contradiction.
Qed.

(** X16: [pop] closes the polylines for good: the polylines that [trace]
    showed before the pop are the archived ones after it, and a forward
    after the pop adds its point to the new open polyline and leaves every
    archived one as it was. *)
Theorem pop_freezes_archived (s s1 s2 : SimpleAgent.t) (d : R)
    (Hv : valid_refs s)
    (Hpop : SimpleAgent.pop s = (Return tt, s1))
    (Hfw : SimpleAgent.forward d s1 = (Return tt, s2)) :
  map (deref (SimpleAgent.heap s1)) (SimpleAgent._traces s1)
  = SimpleAgent.trace s
  /\ map (deref (SimpleAgent.heap s2)) (SimpleAgent._traces s2)
     = SimpleAgent.trace s
  /\ deref (SimpleAgent.heap s2) (SimpleAgent._trace s2)
     = [(SimpleAgent.x s1, SimpleAgent.y s1);
        (SimpleAgent.x s2, SimpleAgent.y s2)].
Proof.
  destruct (pop_cases s) as [(_ & H)|(rest & x' & y' & phi' & _ & H)];
    rewrite H in Hpop; [discriminate|]. injection Hpop as <-.
  destruct (Rge_dec d 0) as [Hd|Hd];
    [|rewrite forward_negative in Hfw by lra; discriminate].
  rewrite forward_ok in Hfw by assumption. injection Hfw as <-.
  assert (Hold : map (deref (SimpleAgent.heap s ++ [[(x', y')]]))
                   (SimpleAgent._traces s ++ [SimpleAgent._trace s])
                 = SimpleAgent.trace s).
  { apply map_ext_in. intros a Ha. apply deref_alloc_old.
    unfold valid_refs, SimpleAgent.trace_refs in Hv.
    rewrite Forall_forall in Hv. now apply Hv. }
  cbn -[deref append_at cos sin PI]. split; [exact Hold|]. split.
  - rewrite map_deref_append_at_fresh; [exact Hold|].
    intros Hin. unfold valid_refs, SimpleAgent.trace_refs in Hv.
    rewrite Forall_forall in Hv. apply Hv in Hin. lia.
  - rewrite deref_append_at_same by (rewrite length_app; simpl; lia).
    now rewrite deref_alloc_new.
Qed.

Lemma pop_freezes_archived_witness :
  exists s0 s1 s2,
    valid_refs s0
    /\ SimpleAgent.pop s0 = (Return tt, s1)
    /\ SimpleAgent.forward 1 s1 = (Return tt, s2)
    /\ map (deref (SimpleAgent.heap s2)) (SimpleAgent._traces s2)
       = SimpleAgent.trace s0.
Proof.
  pose (s0 := snd (SimpleAgent.push (SimpleAgent.__init__ 0 0 0))).
  assert (Hv : valid_refs s0).
  { apply (valid_refs_run Push). apply valid_refs_init. }
  assert (H1 : 1 >= 0) by lra.
  exists s0. eexists. eexists. split; [exact Hv|].
  split; [exact (pop_nonempty s0 [] 0 0 0 eq_refl)|].
  split; [exact (forward_ok 1 _ H1)|].
  exact (proj1 (proj2 (pop_freezes_archived s0 _ _ 1 Hv
                         (pop_nonempty s0 [] 0 0 0 eq_refl)
                         (forward_ok 1 _ H1)))).
Defined.

(** ** The grammar and the table together *)

(** X17: when every character of the initial string and of the replacement
    strings has an entry in the default table, no iteration count makes the
    construction of an agent with that table raise [KeyError]. *)
Theorem covered_alphabet_no_KeyError
    (x0 y0 phi0 step phi : R) (g : L_Grammar.t) (n : Z)
    (e : exn) (self : option L_Agent.t)
    (Hcover : forall c,
        In c (Py.chars (L_Grammar.initial g))
        \/ In c (replacement_chars (L_Grammar.rules g)) ->
        Py.lookup L_Agent.default_rules c <> None)
    (Hraise : L_Agent.__init__ x0 y0 phi0 L_Agent.default_rules (Some g) step
                phi n = (Raise e, self)) :
  forall c, e <> KeyError c.
Proof.
  intros c ->. unfold L_Agent.__init__, L_Agent._process in Hraise.
  cbn [L_Agent.grammar L_Agent.iterations] in Hraise.
  destruct (for_ _ _ _) as [o s1] eqn:E in Hraise. injection Hraise as -> _.
  apply for_dispatch_default_raise in E; [|reflexivity].
  destruct E as [E|[E|[[E _]|(c' & E & Hin & Hnone)]]]; try discriminate.
  apply expand_chars in Hin. now apply Hcover in Hin.
Qed.

Lemma covered_alphabet_no_KeyError_witness :
  L_Agent.__init__ 0 0 0 L_Agent.default_rules
    (Some (L_Grammar.mk "X" [("X"%char, "X]")])) 1 90 1
  = (Raise IndexError,
     Some (L_Agent.mk (SimpleAgent.__init__ 0 0 0) 1 90 L_Agent.default_rules
             1 (L_Grammar.mk "X" [("X"%char, "X]")])))
  /\ forall c, IndexError <> KeyError c.
Proof.
  assert (H : L_Agent.__init__ 0 0 0 L_Agent.default_rules
                (Some (L_Grammar.mk "X" [("X"%char, "X]")])) 1 90 1
              = (Raise IndexError,
                 Some (L_Agent.mk (SimpleAgent.__init__ 0 0 0) 1 90
                         L_Agent.default_rules 1
                         (L_Grammar.mk "X" [("X"%char, "X]")])))).
  { unfold L_Agent.__init__, L_Agent._process.
    cbn [L_Agent.grammar L_Agent.iterations].
    change (Py.chars _) with ["X"%char; "]"%char].
    rewrite (interpret_default_operations _ [Noop; Pop]); reflexivity. }
  split; [exact H|].
  refine (covered_alphabet_no_KeyError 0 0 0 1 90
            (L_Grammar.mk "X" [("X"%char, "X]")]) 1 IndexError _ _ H).
  intros c [[<-|[]]|[<-|[<-|[]]]]; discriminate.
Defined.

(** ** Bookkeeping *)

Lemma run_return_heap (o : operation) (s s' : SimpleAgent.t) :
  run o s = (Return tt, s') ->
  List.length (SimpleAgent.heap s')
  = (List.length (SimpleAgent.heap s) + count is_pop [o])%nat.
Proof.
  rewrite count_one.
  assert (Hfw : forall r, SimpleAgent.forward r s = (Return tt, s') ->
                  List.length (SimpleAgent.heap s')
                  = (List.length (SimpleAgent.heap s) + 0)%nat).
  { intros r. destruct (Rge_dec r 0) as [Hr|Hr].
    - rewrite forward_ok by assumption. intros [= <-]. simpl.
      rewrite length_append_at. lia.
    - rewrite forward_negative by lra. discriminate. }
  destruct o; cbn [run is_pop].
  - apply Hfw.
  - apply Hfw.
  - intros [= <-]. simpl. lia.
  - rewrite push_eq. intros [= <-]. simpl. lia.
  - destruct (pop_cases s) as [(_ & H)|(rest & x' & y' & phi' & _ & H)];
      rewrite H; [discriminate|]. intros [= <-]. simpl.
    now rewrite length_app.
  - intros [= <-]. lia.
Qed.

Lemma depth_after_counts (ops : list operation) :
  forall d d', depth_after d ops = Some d' ->
    (d' + count is_pop ops = d + count is_push ops)%nat.
Proof.
  induction ops as [|o ops IH]; intros d d'.
  - simpl. intros [= <-]. unfold count. simpl. lia.
  - rewrite (count_cons is_pop), (count_cons is_push), !count_one.
    destruct o; cbn [depth_after is_pop is_push]; intros H;
      try (apply IH in H; lia).
    destruct d as [|d1]; [discriminate|]. apply IH in H. lia.
Qed.

Lemma for_run_depth (ops : list operation) :
  forall s s', for_ ops run s = (Return tt, s') ->
    depth_after (List.length (SimpleAgent._state s)) ops
    = Some (List.length (SimpleAgent._state s')).
Proof.
  induction ops as [|o ops IH]; intros s s'.
  - simpl. now intros [= <-].
  - rewrite depth_after_cons. cbn [for_]. unfold bind.
    destruct (run o s) as [[[]|e] s1] eqn:E; [|discriminate].
    rewrite (run_return_depth _ _ _ E). apply IH.
Qed.

(** X18: after a sequence of operations that all return, the depth of the
    state stack is the depth before plus the pushes minus the pops, and the
    agent holds one more polyline object for each pop; on a fresh agent the
    stack holds pushes minus pops entries and there are 1 plus pops
    polyline objects. *)
Theorem stack_and_polyline_counts (ops : list operation)
    (s s' : SimpleAgent.t) (Hrun : for_ ops run s = (Return tt, s')) :
  (List.length (SimpleAgent._state s') + count is_pop ops
   = List.length (SimpleAgent._state s) + count is_push ops)%nat
  /\ List.length (SimpleAgent.heap s')
     = (List.length (SimpleAgent.heap s) + count is_pop ops)%nat.
Proof.
  split.
  - apply depth_after_counts. now apply for_run_depth.
  - revert s s' Hrun. induction ops as [|o ops IH]; intros s s'.
    + simpl. intros [= <-]. unfold count. simpl. lia.
    + cbn [for_]. unfold bind.
      destruct (run o s) as [[[]|e] s1] eqn:E; [|discriminate].
      intros H. rewrite (IH _ _ H), (run_return_heap _ _ _ E).
      rewrite (count_cons is_pop o ops). lia.
Qed.

Lemma stack_and_polyline_counts_witness :
  exists s',
    for_ [Push; Push; Rotate 90; Pop] run (SimpleAgent.__init__ 0 0 0)
    = (Return tt, s')
    /\ List.length (SimpleAgent._state s') = 1%nat
    /\ List.length (SimpleAgent.heap s') = 2%nat.
Proof.
  assert (Ho : fst (for_ [Push; Push; Rotate 90; Pop] run
                      (SimpleAgent.__init__ 0 0 0)) = Return tt)
    by reflexivity.
  destruct (for_ [Push; Push; Rotate 90; Pop] run
              (SimpleAgent.__init__ 0 0 0)) as [o s1] eqn:E.
  simpl in Ho. subst o. exists s1. split; [reflexivity|].
  destruct (stack_and_polyline_counts _ _ _ E) as [H1 H2].
  unfold count in H1, H2. simpl in H1, H2. split; lia.
Defined.

(** ** The symbols X and Y *)

Lemma dispatch_noop_symbol (c : ascii) (self : L_Agent.t) :
  L_Agent.rules self = L_Agent.default_rules ->
  is_noop_symbol c = true ->
  L_Agent.dispatch c self = (Return tt, self).
Proof.
  intros Hr Hc. rewrite dispatch_default by assumption.
  unfold is_noop_symbol in Hc. apply orb_true_iff in Hc.
  destruct Hc as [Hc|Hc]; apply Ascii.eqb_eq in Hc; subst c;
    cbn [default_operation Ascii.eqb Bool.eqb];
    unfold L_Agent.on_base; simpl; now rewrite set_base_base.
Qed.

(** X19: with the default table the symbols [X] and [Y] do nothing:
    interpreting a command string gives the same outcome and the same agent
    as interpreting the string without its [X] and [Y]. *)
Theorem noop_symbols_can_be_dropped (cs : list ascii) (self : L_Agent.t)
    (Hr : L_Agent.rules self = L_Agent.default_rules) :
  for_ cs L_Agent.dispatch self
  = for_ (filter (fun c => negb (is_noop_symbol c)) cs) L_Agent.dispatch self.
Proof.
  revert self Hr. induction cs as [|c cs IH]; intros self Hr; [reflexivity|].
  cbn [filter]. destruct (is_noop_symbol c) eqn:Ec; cbn [negb for_].
  - unfold bind. rewrite dispatch_noop_symbol by assumption. now apply IH.
  - unfold bind. destruct (L_Agent.dispatch c self) as [[[]|e] s1] eqn:E;
      [|reflexivity].
    apply IH. apply dispatch_default_rules in E. destruct E as (E & _).
    congruence.
Qed.

Lemma noop_symbols_can_be_dropped_witness :
  for_ (Py.chars "X[Y-X]Y") L_Agent.dispatch
    (L_Agent.mk (SimpleAgent.__init__ 0 0 0) 1 90 L_Agent.default_rules 0
       (L_Grammar.mk "X[Y-X]Y" []))
  = for_ (Py.chars "[-]") L_Agent.dispatch
      (L_Agent.mk (SimpleAgent.__init__ 0 0 0) 1 90 L_Agent.default_rules 0
         (L_Grammar.mk "X[Y-X]Y" [])).
Proof.
  exact (noop_symbols_can_be_dropped (Py.chars "X[Y-X]Y")
           (L_Agent.mk (SimpleAgent.__init__ 0 0 0) 1 90 L_Agent.default_rules
              0 (L_Grammar.mk "X[Y-X]Y" [])) eq_refl).
Defined.
